(** * Budgeted fragment retrieval: [parser_sentence_transformer.py]

    A shallow embedding of the retrieval core of
    [src/parser_sentence_transformer.py] -- [chunk_to_length], [embed] and
    [predict] -- and the properties of it that the specification states.

    Conventions of the embedding.
    - A Python [str] is a [string]; [len] is [String.length]; the slices
      [text[:n]] and [text[n:]] are [slice_to] and [slice_from], with
      Python's meaning of a negative bound.
    - A Python [int] is a [Z]; list positions are [nat].
    - A similarity score is a rational: every finite float is one, and the
      comparison of finite floats is the comparison of their values.  NaN
      scores are outside the model.
    - A [dict] is an association list in insertion order, which is the order
      in which Python iterates it; assigning to a key that is present keeps
      its position.
    - A raised exception is [Err]; a loop that never exits is
      [Err NonTermination].  Loops take fuel, and the fuel they are given is
      proved to be enough wherever the source loop exits.
    - [sorted] is Python's stable sort.
    - The sentence-transformer model and the file converters are external:
      they are the classes [Embedder] and [Converter].  An embedder returns
      one vector for each string it is given; nothing else is assumed of
      it. *)

From Stdlib Require Import ZArith QArith Lia.
From stdpp Require Import base list strings sorting pretty gmap.

Open Scope Z_scope.

(** ** Exceptions *)

Inductive error : Type :=
  | ConversionError   (* raised inside [convert] *)
  | ValueError        (* a tuple unpacking of the wrong size *)
  | IndexError        (* a list index out of range *)
  | NonTermination.   (* the loop has no exit *)

Inductive result (A : Type) : Type :=
  | Ok (a : A)
  | Err (e : error).
Arguments Ok {A} a.
Arguments Err {A} e.

#[global] Instance result_ret : MRet result := λ A a, Ok a.
#[global] Instance result_bind : MBind result := λ A B f r,
  match r with
  | Ok a => f a
  | Err e => Err e
  end.

(** [l[i]] for a non-negative [i]. *)
Definition index {A} (l : list A) (i : nat) : result A :=
  match l !! i with
  | Some x => Ok x
  | None => Err IndexError
  end.

(** ** Strings *)

Fixpoint str_take (n : nat) (s : string) : string :=
  match n, s with
  | S n', String c s' => String c (str_take n' s')
  | _, _ => EmptyString
  end.

Fixpoint str_drop (n : nat) (s : string) : string :=
  match n, s with
  | S n', String _ s' => str_drop n' s'
  | _, _ => s
  end.

Definition len (s : string) : Z := Z.of_nat (String.length s).

(** The position a slice bound denotes: a negative bound counts from the
    end, and every bound is clipped to the string. *)
Definition slice_bound (s : string) (n : Z) : nat :=
  if n <? 0 then Z.to_nat (Z.max 0 (len s + n)) else Z.to_nat n.

(** [s[:n]] *)
Definition slice_to (s : string) (n : Z) : string := str_take (slice_bound s n) s.

(** [s[n:]] *)
Definition slice_from (s : string) (n : Z) : string := str_drop (slice_bound s n) s.

Definition newline : Ascii.ascii := Ascii.ascii_of_nat 10.

(** [s.split("\n")]: never empty, [""] for the empty string. *)
Fixpoint split_lines (s : string) : list string :=
  match s with
  | EmptyString => [EmptyString]
  | String c s' =>
      if Ascii.eqb c newline then EmptyString :: split_lines s'
      else match split_lines s' with
           | line :: lines => String c line :: lines
           | [] => [String c EmptyString]
           end
  end.

(** [a, b = s]: a string unpacks into its characters, and there must be
    exactly two of them. *)
Definition unpack_pair (s : string) : result (string * string) :=
  match s with
  | String a (String b EmptyString) => Ok (String a EmptyString, String b EmptyString)
  | _ => Err ValueError
  end.

Definition concat_str (l : list string) : string := foldr String.append EmptyString l.

Definition sum_Z (l : list Z) : Z := foldr Z.add 0 l.

(** [enumerate(l, start)] *)
Fixpoint enumerate_from {A} (start : nat) (l : list A) : list (nat * A) :=
  match l with
  | [] => []
  | x :: l' => (start, x) :: enumerate_from (S start) l'
  end.

Definition enumerate {A} (l : list A) : list (nat * A) := enumerate_from 0 l.

(** ** Dictionaries, in insertion order *)

Definition dict (V : Type) : Type := list (string * V).

Fixpoint dict_get {V} (k : string) (d : dict V) : option V :=
  match d with
  | [] => None
  | (k', v) :: d' => if String.eqb k k' then Some v else dict_get k d'
  end.

(** [k in d] *)
Definition dict_mem {V} (k : string) (d : dict V) : bool :=
  match dict_get k d with
  | Some _ => true
  | None => false
  end.

(** [d[k] = v] *)
Fixpoint dict_set {V} (k : string) (v : V) (d : dict V) : dict V :=
  match d with
  | [] => [(k, v)]
  | (k', v') :: d' =>
      if String.eqb k k' then (k, v) :: d' else (k', v') :: dict_set k v d'
  end.

Definition keys {V} (d : dict V) : list string := d.*1.

(** ** The chunker, [chunk_to_length] *)

(** The [while] loop, [chunks] being the list built so far.  One unit of
    fuel is one evaluation of the loop condition. *)
Fixpoint chunk_loop (fuel : nat) (text : string) (max_length : Z)
    (chunks : list string) : result (list string) :=
  match fuel with
  | O => Err NonTermination
  | S fuel' =>
      if len text >? max_length
      then chunk_loop fuel' (slice_from text max_length) max_length
             (chunks ++ [slice_to text max_length])
      else Ok (chunks ++ [text])
  end.

(** With a positive [max_length] the text loses a character in every
    iteration, so its length bounds the iterations; with any other
    [max_length] an iteration leaves the loop condition as it was, and
    the loop runs for ever. *)
Definition chunk_to_length (text : string) (max_length : Z) : result (list string) :=
  chunk_loop (S (String.length text)) text max_length [].

(** [ceil(n / s)] *)
Definition ceil_div (n s : nat) : nat := ((n + s - 1) / s)%nat.

(** ** The external collaborators *)

Definition vector : Type := list Q.

(** [model.encode]: one vector for each string, in order. *)
Class Embedder : Type := {
  encode_query : list string → list vector;
  encode_document : list string → list vector;
  encode_query_length : ∀ l, length (encode_query l) = length l;
  encode_document_length : ∀ l, length (encode_document l) = length l
}.

(** [convert(input_file, filename)] *)
Class Converter : Type := {
  convert : string → string → result string
}.

(** ** The scorer, [embed] *)

Definition dot (u v : vector) : Q := foldr Qplus 0%Q (zip_with Qmult u v).

(** [a @ b.T] *)
Definition matmul_T (a b : list vector) : list (list Q) :=
  fmap (λ u, fmap (dot u) b) a.

Definition embed `{Embedder} (queries chunks : list string) : dict (list (nat * Q)) :=
  let query_embeddings := encode_query queries in
  let document_embeddings := encode_document chunks in
  let scores := matmul_T query_embeddings document_embeddings in
  foldl (λ results '(query, query_scores),
           let chunk_idxs := seq 0 (length chunks) in
           dict_set query (zip chunk_idxs query_scores) results)
        [] (zip queries scores).

(** ** The allocator *)

(** (doc_idx, chunk_idx, score) *)
Definition candidate : Type := nat * nat * Q.

Definition score_of (c : candidate) : Q := c.2.

(** Lines 138-145: the rankings of one document are appended to the queue
    of each query. *)
Definition add_document (query_embeddings : dict (list candidate))
    (entry : nat * dict (list (nat * Q))) : dict (list candidate) :=
  let '(doc_idx, embedded_doc) := entry in
  foldl (λ query_embeddings '(query, doc_scores),
           let doc_scores_with_doc :=
             fmap (λ '(chunk_idx, score), (doc_idx, chunk_idx, score)) doc_scores in
           let query_embeddings :=
             if dict_mem query query_embeddings then query_embeddings
             else dict_set query [] query_embeddings in
           dict_set query
             (default [] (dict_get query query_embeddings) ++ doc_scores_with_doc)
             query_embeddings)
        query_embeddings embedded_doc.

Definition merge_queues (embedded_docs : list (dict (list (nat * Q)))) : dict (list candidate) :=
  foldl add_document [] (enumerate embedded_docs).

(** [sorted(doc_scores, key=lambda x: x[2], reverse=True)].  Python's sort
    is stable, also when reversed: the result is in descending order of
    the key and candidates of equal key keep the order they had.  There is
    one such arrangement, and insertion from the right builds it. *)
Fixpoint insert_desc (x : candidate) (l : list candidate) : list candidate :=
  match l with
  | [] => [x]
  | y :: l' =>
      if Qle_bool (score_of y) (score_of x) then x :: y :: l'
      else y :: insert_desc x l'
  end.

Definition sorted_desc (l : list candidate) : list candidate := foldr insert_desc [] l.

(** Lines 148-149. Every key is assigned once, and keeps its position. *)
Definition sort_queues (query_embeddings : dict (list candidate)) : dict (list candidate) :=
  fmap (λ '(query, doc_scores), (query, sorted_desc doc_scores)) query_embeddings.

(** What the allocation loop accumulates. *)
Record selection : Type := {
  document_embeddings : list (list nat);
  total_chars : Z
}.

(** [chunked_docs[doc_idx][chunk_idx]] *)
Definition chunk_at (chunked_docs : list (list string)) (doc_idx chunk_idx : nat)
    : result string :=
  chunks ← index chunked_docs doc_idx;
  index chunks chunk_idx.

(** Lines 166-177: the body of the [for] loop once a candidate is popped. *)
Definition consider (chunked_docs : list (list string)) (max_characters : Z)
    (top : candidate) (st : selection) : result selection :=
  let '(doc_idx, chunk_idx, _) := top in
  chunk ← chunk_at chunked_docs doc_idx chunk_idx;
  if total_chars st + len chunk >? max_characters then Ok st
  else
    selected ← index (document_embeddings st) doc_idx;
    if bool_decide (chunk_idx ∈ selected) then Ok st
    else Ok {| document_embeddings :=
                 <[doc_idx := selected ++ [chunk_idx]]> (document_embeddings st);
               total_chars := total_chars st + len chunk |}.

(** Lines 159-177: one pass of the [for] loop over the items of
    [query_embeddings].  [doc_scores.pop(0)] changes the list the
    dictionary holds, so the pass returns the dictionary as well. *)
Fixpoint round_robin (chunked_docs : list (list string)) (max_characters : Z)
    (items : dict (list candidate)) (st : selection)
    : result (dict (list candidate) * selection) :=
  match items with
  | [] => Ok ([], st)
  | (query, doc_scores) :: items' =>
      match doc_scores with
      | [] =>
          '(rest, st') ← round_robin chunked_docs max_characters items' st;
          Ok ((query, []) :: rest, st')
      | top :: doc_scores' =>
          st1 ← consider chunked_docs max_characters top st;
          '(rest, st') ← round_robin chunked_docs max_characters items' st1;
          Ok ((query, doc_scores') :: rest, st')
      end
  end.

(** [sum([len(x) for x in query_embeddings.values()])] *)
Definition queued (query_embeddings : dict (list candidate)) : nat :=
  sum_list (fmap (λ x, length x) query_embeddings.*2).

(** Lines 155-177: the [while] loop; one unit of fuel is one pass. *)
Fixpoint allocate_loop (fuel : nat) (chunked_docs : list (list string))
    (max_characters : Z) (query_embeddings : dict (list candidate))
    (st : selection) : result (dict (list candidate) * selection) :=
  if (total_chars st <? max_characters) && (0 <? queued query_embeddings)%nat then
    match fuel with
    | O => Err NonTermination
    | S fuel' =>
        '(query_embeddings', st') ←
          round_robin chunked_docs max_characters query_embeddings st;
        allocate_loop fuel' chunked_docs max_characters query_embeddings' st'
    end
  else Ok (query_embeddings, st).

(** A pass that runs pops at least one candidate, so the number of queued
    candidates bounds the passes. *)
Definition allocate (chunked_docs : list (list string)) (max_characters : Z)
    (query_embeddings : dict (list candidate)) (st : selection)
    : result (dict (list candidate) * selection) :=
  allocate_loop (queued query_embeddings) chunked_docs max_characters
    query_embeddings st.

(** Lines 180-183. *)
Definition chunk_texts (chunked_docs : list (list string))
    (document_embeddings : list (list nat)) : result (list (list string)) :=
  mapM (λ '(doc_idx, chunks), mapM (chunk_at chunked_docs doc_idx) chunks)
       (enumerate document_embeddings).

(** ** The orchestrator, [predict] *)

(** Lines 134-149: the queue of every query, merged over the documents
    and sorted. *)
Definition build_queues `{Embedder} (queries : list string)
    (chunked_docs : list (list string)) : dict (list candidate) :=
  let embedded_docs := fmap (λ chunks, embed queries chunks) chunked_docs in
  sort_queues (merge_queues embedded_docs).

Definition initial_selection (documents : list string) : selection :=
  {| document_embeddings := replicate (length documents) []; total_chars := 0 |}.

(** Lines 132-177: the chunked path up to the end of the allocation. *)
Definition select_chunks `{Embedder} (queries documents converted_docs : list string)
    (max_characters : Z) : result (list (list string) * selection) :=
  chunked_docs ← mapM (λ doc, chunk_to_length doc 512) converted_docs;
  '(_, st) ← allocate chunked_docs max_characters
               (build_queues queries chunked_docs) (initial_selection documents);
  Ok (chunked_docs, st).

Definition convert_all `{Converter} (documents document_filenames : list string)
    : result (list string) :=
  mapM (λ '(doc, filename), convert doc filename) (zip documents document_filenames).

Definition predict `{Embedder, Converter} (queries : string) (documents : list string)
    (document_filenames : string) (max_characters : Z) : result (list (list string)) :=
  let queries := split_lines queries in
  let document_filenames := split_lines document_filenames in
  converted_docs ← convert_all documents document_filenames;
  let total_doc_lengths := sum_Z (fmap len converted_docs) in
  if total_doc_lengths <? max_characters then
    mapM (λ item, '(doc, _) ← unpack_pair item; Ok [doc]) converted_docs
  else
    '(chunked_docs, st) ← select_chunks queries documents converted_docs max_characters;
    chunk_texts chunked_docs (document_embeddings st).

(** ** Notions the statements use *)

(** Both indices of a candidate are valid: [chunked_docs[doc_idx][chunk_idx]]
    exists. *)
Definition in_range (chunked_docs : list (list string)) (top : candidate) : Prop :=
  ∃ chunk, chunk_at chunked_docs top.1.1 top.1.2 = Ok chunk.

(** Every candidate of every queue has valid indices. *)
Definition queues_in_range (chunked_docs : list (list string))
    (items : dict (list candidate)) : Prop :=
  Forall (λ item, Forall (in_range chunked_docs) item.2) items.

(** Every queue without its head. *)
Definition pop_all (items : dict (list candidate)) : dict (list candidate) :=
  (λ '(query, doc_scores), (query, tail doc_scores)) <$> items.

(** The head of every queue that has one, with its query, in the order of
    the dictionary. *)
Definition heads (items : dict (list candidate)) : list (string * candidate) :=
  omap (λ '(query, doc_scores), (query,.) <$> head doc_scores) items.

(** The candidates that [rounds] full passes visit, in the order of the
    visits: the heads, then the heads of what is left, and so on. *)
Fixpoint schedule (rounds : nat) (items : dict (list candidate))
    : list (string * candidate) :=
  match rounds with
  | O => []
  | S rounds' => heads items ++ schedule rounds' (pop_all items)
  end.

(** The loop body applied to a list of candidates, one after the other. *)
Fixpoint consider_all (chunked_docs : list (list string)) (max_characters : Z)
    (tops : list candidate) (st : selection) : result selection :=
  match tops with
  | [] => Ok st
  | top :: tops' =>
      st1 ← consider chunked_docs max_characters top st;
      consider_all chunked_docs max_characters tops' st1
  end.

(** The characters of all fragments of all documents. *)
Definition total_fragment_chars (fragments : list (list string)) : Z :=
  sum_Z (len <$> concat fragments).

(** What the allocation loop keeps true of its selection: no chunk index
    twice for a document, a total within the budget, and a total that is
    the number of characters of the chunks selected, all of which exist. *)
Definition selection_ok (chunked_docs : list (list string)) (max_characters : Z)
    (st : selection) : Prop :=
  Forall NoDup (document_embeddings st) ∧
  total_chars st <= Z.max 0 max_characters ∧
  ∃ fragments,
    chunk_texts chunked_docs (document_embeddings st) = Ok fragments ∧
    total_fragment_chars fragments = total_chars st.

(** [a] comes before [b] in the order of (document index, chunk index). *)
Definition position_before (a b : candidate) : Prop :=
  (a.1.1 < b.1.1 ∨ a.1.1 = b.1.1 ∧ a.1.2 < b.1.2)%nat.

(** What holds of a queue when the documents below [doc_count] have been
    merged into it: it is in the order of (document index, chunk index),
    and its candidates are valid and of these documents. *)
Definition merged_upto (chunked_docs : list (list string)) (doc_count : nat)
    (doc_scores : list candidate) : Prop :=
  StronglySorted position_before doc_scores ∧
  Forall (λ top, (top.1.1 < doc_count)%nat ∧ in_range chunked_docs top) doc_scores.

(** [a] is ranked before [b]: a higher score, or the same score and a
    smaller (document index, chunk index). *)
Definition ranked_before (a b : candidate) : Prop :=
  (score_of b < score_of a)%Q ∨
  (score_of a == score_of b)%Q ∧ position_before a b.

(** The keys of a dictionary after an assignment to [k]. *)
Definition add_key (ks : list string) (k : string) : list string :=
  if bool_decide (k ∈ ks) then ks else ks ++ [k].

(** The distinct strings of a list, each at its first occurrence: the
    keys of a dictionary to which the strings are assigned in order. *)
Definition distinct_in_order (l : list string) : list string := foldl add_key [] l.

(** The candidates visited for one query, in the order of the visits. *)
Definition popped_for (query : string) (visits : list (string * candidate))
    : list candidate :=
  (filter (λ visit, visit.1 = query) visits).*2.

(** A queue holds a candidate for every chunk of the documents below
    [doc_count]. *)
Definition covers (chunked_docs : list (list string)) (doc_count : nat)
    (doc_scores : list candidate) : Prop :=
  ∀ d chunks c,
    (d < doc_count)%nat → chunked_docs !! d = Some chunks → (c < length chunks)%nat →
    ∃ score, (d, c, score) ∈ doc_scores.

(** A candidate is settled in a selection: its chunk is selected, or is
    too long for what is left of the budget. *)
Definition settled (chunked_docs : list (list string)) (max_characters : Z)
    (top : candidate) (st : selection) : Prop :=
  (∃ selected, document_embeddings st !! top.1.1 = Some selected ∧ top.1.2 ∈ selected) ∨
  (∃ chunk, chunk_at chunked_docs top.1.1 top.1.2 = Ok chunk ∧
            max_characters < total_chars st + len chunk).

(** ** A concrete embedder and converter, for the examples *)

(** The vector of a string has one coordinate, the code of its first
    character. *)
Definition first_char_vector (s : string) : vector :=
  match s with
  | EmptyString => [0%Q]
  | String c _ => [inject_Z (Z.of_nat (Ascii.nat_of_ascii c))]
  end.

Definition first_char_embedder : Embedder := {|
  encode_query := fmap first_char_vector;
  encode_document := fmap first_char_vector;
  encode_query_length := length_fmap first_char_vector;
  encode_document_length := length_fmap first_char_vector
|}.

(** The text of a file is its path. *)
Definition path_converter : Converter := {| convert := λ input_file _, Ok input_file |}.

(** Every conversion fails. *)
Definition failing_converter : Converter := {| convert := λ _ _, Err ConversionError |}.

(** Inputs of the examples: a text of 1200 characters, and two queries
    and two file names, one to a line. *)
Definition example_text : string := concat_str (replicate 120 "0123456789"%string).

Definition example_queries : string := String.append "b" (String newline "a").

Definition example_filenames : string :=
  String.append "x.txt" (String newline "y.txt").

(** ** The text of a PDF, [extract_text_from_pdf] *)

(** In what follows the characters matter: a character is a code point
    below 256.  [str.isspace] on these: the controls 9 to 13 and 28 to 31,
    the space, and the code points 133 and 160. *)
Definition isspace (c : Ascii.ascii) : bool :=
  let n := Ascii.nat_of_ascii c in
  ((9 <=? n) && (n <=? 13) || (28 <=? n) && (n <=? 32) || (n =? 133) || (n =? 160))%nat.

(** [s.lstrip()] *)
Fixpoint lstrip (s : string) : string :=
  match s with
  | EmptyString => EmptyString
  | String c s' => if isspace c then lstrip s' else s
  end.

(** [s.rstrip()] *)
Fixpoint rstrip (s : string) : string :=
  match s with
  | EmptyString => EmptyString
  | String c s' =>
      match rstrip s' with
      | EmptyString => if isspace c then EmptyString else String c EmptyString
      | rest => String c rest
      end
  end.

(** [s.strip()] *)
Definition strip (s : string) : string := rstrip (lstrip s).

(** [f"---- Page {idx} ----\n"] *)
Definition page_header (idx : nat) : string :=
  String.append "---- Page "
    (String.append (pretty idx) (String.append " ----" (String newline EmptyString))).

(** The body of the loop.  A page is the text [page.extract_text()]
    returns for it. *)
Definition add_page (full_text : string) (entry : nat * string) : string :=
  let '(idx, text) := entry in
  if 0 <? len text
  then String.append full_text
         (String.append (page_header idx)
            (String.append text (String newline (String newline EmptyString))))
  else full_text.

Definition extract_text_from_pdf (pages : list string) : string :=
  let full_text := foldl add_page EmptyString (enumerate pages) in
  strip full_text.

(** ** Random names, [random_word] *)

(** The generator of the [random] module: [randbelow g n] is a number
    below [n] and the generator after the draw. *)
Class RandomSource (G : Type) : Type := {
  randbelow : G → nat → nat * G;
  randbelow_lt : ∀ g n, (0 < n)%nat → ((randbelow g n).1 < n)%nat
}.

(** [string.ascii_lowercase] *)
Definition ascii_lowercase : string := "abcdefghijklmnopqrstuvwxyz".

(** [random.choice(s)], for a string that is not empty: the character at
    a position drawn below its length. *)
Definition choice `{RandomSource G} (s : string) (g : G) : Ascii.ascii * G :=
  let '(i, g') := randbelow g (String.length s) in
  (default Ascii.zero (String.get i s), g').

(** The generator expression of [random_word], run [count] times. *)
Fixpoint random_letters `{RandomSource G} (count : nat) (g : G) : string * G :=
  match count with
  | O => (EmptyString, g)
  | S count' =>
      let '(c, g1) := choice ascii_lowercase g in
      let '(word, g2) := random_letters count' g1 in
      (String c word, g2)
  end.

(** [range(length)] is empty for a [length] below zero. *)
Definition random_word `{RandomSource G} (length : Z) (g : G) : string * G :=
  random_letters (Z.to_nat length) g.

(** A generator for the examples: it counts. *)
Definition counter : RandomSource nat := {|
  randbelow := λ g n, ((g `mod` n)%nat, S g);
  randbelow_lt := λ g n H, Nat.mod_upper_bound g n (λ E, Nat.lt_neq 0 n H (eq_sym E))
|}.

(** ** The converters, [convert], [convert_pdf] and [convert_pandoc] *)

(** [s.endswith(suffix)] *)
Definition ends_with (s suffix : string) : bool :=
  (String.length suffix <=? String.length s)%nat &&
  String.eqb (str_drop (String.length s - String.length suffix) s) suffix.

(** [s.replace(old, new)] for an [old] that is not empty: the occurrences
    of [old] are found from the left and do not overlap.  [skip] is the
    number of characters of an occurrence still to be passed over. *)
Fixpoint replace_from (old new : string) (skip : nat) (s : string) : string :=
  match s with
  | EmptyString => EmptyString
  | String c s' =>
      match skip with
      | S skip' => replace_from old new skip' s'
      | O =>
          if String.prefix old s
          then String.append new (replace_from old new (String.length old - 1) s')
          else String c (replace_from old new 0 s')
      end
  end.

Definition str_replace (old new s : string) : string := replace_from old new 0 s.

Module IO.

(** What the converters raise. *)
Inductive exn : Type :=
  | FileNotFoundError   (* a path that names no file *)
  | SameFileError       (* [shutil.copyfile] of a file onto itself *)
  | ValueError          (* raised by [convert_pandoc] *)
  | ToolError.          (* raised inside pypdf or ocrmypdf *)

Inductive outcome (A : Type) : Type :=
  | Return (a : A)
  | Raise (e : exn).
Arguments Return {A} a.
Arguments Raise {A} e.

(** The world the converters act on: the contents of the files, by path,
    and the random generator.  Two paths name the same file when they are
    the same string. *)
Record world (G : Type) : Type := {
  files : gmap string string;
  generator : G
}.
Arguments files {G} _.
Arguments generator {G} _.

(** A command returns or raises, and leaves a world. *)
Definition io (G A : Type) : Type := world G → outcome A * world G.

#[global] Instance io_ret {G} : MRet (io G) := λ A a w, (Return a, w).
#[global] Instance io_bind {G} : MBind (io G) := λ A B f m w,
  match m w with
  | (Return a, w') => f a w'
  | (Raise e, w') => (Raise e, w')
  end.

(** The programs the converters run.  [pdf_pages] is [PdfReader] on the
    contents of a file: for every page its text and the number of its
    images.  [ocr_output] is the file ocrmypdf makes of a file.  [pandoc]
    is given the name of its input and the contents, when there is such a
    file, and gives its exit code and what it writes to its output, when
    it writes. *)
Class Tools : Type := {
  pdf_pages : string → outcome (list (string * nat));
  ocr_output : string → outcome string;
  pandoc : string → option string → Z * option string
}.

Section Commands.

Context `{Tools} `{RandomSource G}.

Definition raise {A} (e : exn) : io G A := λ w, (Raise e, w).

Definition lift {A} (o : outcome A) : io G A := λ w, (o, w).

(** [open(path, "r").read()] *)
Definition read_file (path : string) : io G string := λ w,
  match files w !! path with
  | Some contents => (Return contents, w)
  | None => (Raise FileNotFoundError, w)
  end.

Definition write_file (path contents : string) : io G unit := λ w,
  (Return (), {| files := <[path := contents]> (files w); generator := generator w |}).

(** [os.remove(path)] *)
Definition remove (path : string) : io G unit := λ w,
  match files w !! path with
  | Some _ =>
      (Return (), {| files := delete path (files w); generator := generator w |})
  | None => (Raise FileNotFoundError, w)
  end.

(** [shutil.copyfile(src, dst)] *)
Definition copyfile (src dst : string) : io G unit :=
  if decide (src = dst) then raise SameFileError
  else contents ← read_file src; write_file dst contents.

(** [PdfReader(path)], read to the end. *)
Definition read_pdf (path : string) : io G (list (string * nat)) :=
  contents ← read_file path; lift (pdf_pages contents).

(** [ocrmypdf.ocr(input_file, output_file, force_ocr=True)] *)
Definition ocr (input_file output_file : string) : io G unit :=
  contents ← read_file input_file;
  made ← lift (ocr_output contents);
  write_file output_file made.

(** [subprocess.call(["pandoc", filename, "-t", "markdown", "-o", output_file])] *)
Definition call_pandoc (filename output_file : string) : io G Z := λ w,
  let '(code, written) := pandoc filename (files w !! filename) in
  (Return code,
   match written with
   | Some markdown =>
       {| files := <[output_file := markdown]> (files w); generator := generator w |}
   | None => w
   end).

(** [random_word(length)] on the generator of the world. *)
Definition draw_word (length : Z) : io G string := λ w,
  let '(word, g) := random_word length (generator w) in
  (Return word, {| files := files w; generator := g |}).

Definition convert_pdf (input_file : string) : io G string :=
  reader ← read_pdf input_file;
  let text := extract_text_from_pdf reader.*1 in
  let image_count := sum_list reader.*2 in
  if (0 <? image_count)%nat && (len text <? 1000) then
    let out_pdf_file := str_replace ".pdf" "_ocr.pdf" input_file in
    ocr input_file out_pdf_file;;
    reader' ← read_pdf input_file;
    let text := extract_text_from_pdf reader'.*1 in
    remove out_pdf_file;;
    mret text
  else mret text.

Definition convert_pandoc (input_file filename : string) : io G string :=
  copyfile input_file filename;;
  word ← draw_word 16;
  let output_file := String.append word ".md" in
  result ← call_pandoc filename output_file;
  if decide (result ≠ 0) then raise ValueError
  else
    markdown ← read_file output_file;
    remove output_file;;
    remove filename;;
    mret markdown.

Definition plain_text_filetypes : list string :=
  [".txt"; ".csv"; ".tsv"; ".md"; ".yaml"; ".toml"; ".json"; ".json5"; ".jsonc"]%string.

Definition convert (input_file filename : string) : io G string :=
  if existsb (λ ft, ends_with filename ft) plain_text_filetypes
  then read_file input_file
  else if ends_with filename ".pdf" then convert_pdf input_file
  else convert_pandoc input_file filename.

End Commands.

(** Tools for the examples: a PDF is its pages, one to a line, and a page
    has an image when it is empty; OCR writes ["scanned"]; pandoc fails on
    an empty file and returns other files as they are. *)
Definition line_tools : Tools := {|
  pdf_pages := λ contents,
    Return ((λ line, (line, if String.eqb line "" then 1%nat else 0%nat))
              <$> split_lines contents);
  ocr_output := λ _, Return "scanned"%string;
  pandoc := λ _ contents,
    match contents with
    | Some (String c s) => (0, Some (String c s))
    | _ => (1, None)
    end
|}.

(** A world for the examples: a PDF of two empty pages, the same under a
    path without [.pdf], a text and an empty file. *)
Definition example_world : world nat := {|
  files := <["doc.pdf"%string := String newline EmptyString]>
             (<["upload.tmp"%string := String newline EmptyString]>
                (<["note.odt"%string := "hello"%string]>
                   (<["empty.odt"%string := EmptyString]> ∅)));
  generator := 0%nat
|}.

End IO.

(** * Properties *)

(** ** Strings and slices *)

Lemma append_cons c s t : String.append (String c s) t = String c (String.append s t).
Proof. reflexivity. Qed.

Lemma append_empty_r s : String.append s EmptyString = s.
Proof. induction s as [|c s IH]; [reflexivity|]. now rewrite append_cons, IH. Qed.

Lemma str_take_drop n s : String.append (str_take n s) (str_drop n s) = s.
Proof.
  revert s. induction n as [|n IH]; intros [|c s]; simpl; try reflexivity.
  now rewrite append_cons, IH.
Qed.

Lemma length_str_take n s :
  String.length (str_take n s) = Nat.min n (String.length s).
Proof.
  revert s. induction n as [|n IH]; intros [|c s]; simpl; try reflexivity.
  f_equal. apply IH.
Qed.

Lemma length_str_drop n s :
  String.length (str_drop n s) = (String.length s - n)%nat.
Proof.
  revert s. induction n as [|n IH]; intros [|c s]; simpl; try reflexivity.
  apply IH.
Qed.

Lemma slice_bound_pos s n : 0 <= n → slice_bound s n = Z.to_nat n.
Proof. intros Hn. unfold slice_bound. destruct (Z.ltb_spec n 0); [lia | reflexivity]. Qed.

Lemma slice_to_from s n : String.append (slice_to s n) (slice_from s n) = s.
Proof. apply str_take_drop. Qed.

Lemma len_slice_to s n : 0 <= n → n <= len s → len (slice_to s n) = n.
Proof.
  intros H0 Hn. unfold slice_to, len in *.
  rewrite length_str_take, slice_bound_pos by done. lia.
Qed.

Lemma len_slice_from s n : 0 <= n → n <= len s → len (slice_from s n) = len s - n.
Proof.
  intros H0 Hn. unfold slice_from, len in *.
  rewrite length_str_drop, slice_bound_pos by done. lia.
Qed.

(** ** The chunker *)

Lemma ceil_div_small n s : (0 < n)%nat → (n <= s)%nat → ceil_div n s = 1%nat.
Proof.
  intros Hn Hs. unfold ceil_div.
  replace (n + s - 1)%nat with ((n - 1) + 1 * s)%nat by lia.
  rewrite Nat.div_add by lia. rewrite Nat.div_small by lia. reflexivity.
Qed.

Lemma ceil_div_step n s :
  (0 < s)%nat → (s < n)%nat → ceil_div n s = S (ceil_div (n - s) s).
Proof.
  intros Hs Hn. unfold ceil_div.
  replace (n + s - 1)%nat with ((n - s + s - 1) + 1 * s)%nat by lia.
  rewrite Nat.div_add by lia. lia.
Qed.

(** [ceil_div n s] is the least number of blocks of [s] that cover [n]. *)
Lemma ceil_div_spec n s :
  (0 < s)%nat →
  (n <= ceil_div n s * s)%nat ∧ ∀ k, (n <= k * s)%nat → (ceil_div n s <= k)%nat.
Proof.
  intros Hs. unfold ceil_div.
  assert (∃ m, (n + s = S m)%nat) as [m Hm] by (exists (n + s - 1)%nat; lia).
  replace (n + s - 1)%nat with m by lia. split.
  - pose proof (Nat.div_mod_eq m s) as E.
    pose proof (Nat.mod_upper_bound m s). nia.
  - intros k Hk.
    destruct (Nat.le_gt_cases (m / s) k) as [|Hgt]; [done|].
    pose proof (Nat.div_mod_eq m s) as E. nia.
Qed.

(** What the loop appends to [chunks], when [max_length] is positive and
    the fuel outlasts the text. *)
Lemma chunk_loop_spec max_length fuel :
  0 < max_length →
  ∀ text chunks, (String.length text < fuel)%nat →
  ∃ body last,
    chunk_loop fuel text max_length chunks = Ok (chunks ++ body ++ [last]) ∧
    concat_str (body ++ [last]) = text ∧
    Forall (λ c, len c = max_length) body ∧
    len last <= max_length ∧
    (text ≠ EmptyString → 0 < len last) ∧
    (text ≠ EmptyString →
       length (body ++ [last]) = ceil_div (String.length text) (Z.to_nat max_length)).
Proof.
  intros Hm. induction fuel as [|fuel IH]; intros text chunks Hfuel; [lia|].
  simpl. destruct (Z.gtb_spec (len text) max_length) as [Hgt|Hle].
  - destruct (IH (slice_from text max_length)
                (chunks ++ [slice_to text max_length]))
      as (body & last & Hrun & Hcat & Hbody & Hlast & Hpos & Hcount).
    { pose proof (len_slice_from text max_length). unfold len in *. lia. }
    assert (Hrest : slice_from text max_length ≠ EmptyString).
    { intros E. pose proof (len_slice_from text max_length) as L.
      rewrite E in L. unfold len in *. simpl in L. lia. }
    exists (slice_to text max_length :: body), last. split_and!.
    + rewrite Hrun, <- app_assoc. reflexivity.
    + unfold concat_str in *. simpl. rewrite Hcat. apply slice_to_from.
    + constructor; [apply len_slice_to; lia | exact Hbody].
    + exact Hlast.
    + intros _. auto.
    + intros _. simpl. rewrite Hcount by exact Hrest.
      rewrite (ceil_div_step (String.length text)); unfold len in *; [|lia..].
      f_equal. f_equal. unfold slice_from.
      rewrite length_str_drop, slice_bound_pos by lia. reflexivity.
  - exists [], text. split_and!; try done.
    + simpl. apply append_empty_r.
    + intros Hne. destruct text; [done|]. unfold len. simpl. lia.
    + intros Hne. simpl. symmetry. apply ceil_div_small.
      * destruct text; [done | simpl; lia].
      * unfold len in *. lia.
Qed.

(** With a [max_length] that is not positive no amount of fuel lets the
    loop exit, the empty text with [max_length = 0] apart. *)
Lemma chunk_loop_diverges max_length fuel :
  ∀ text chunks,
    max_length < 0 ∨ (max_length = 0 ∧ text ≠ EmptyString) →
    chunk_loop fuel text max_length chunks = Err NonTermination.
Proof.
  induction fuel as [|fuel IH]; intros text chunks Hmax; simpl; [done|].
  destruct (Z.gtb_spec (len text) max_length) as [Hgt|Hle].
  - apply IH. destruct Hmax as [Hneg|[-> Hne]]; [by left|].
    right. split; [done|]. by destruct text.
  - destruct Hmax as [Hneg|[-> Hne]]; unfold len in Hle; [lia|].
    destruct text; [done | simpl in Hle; lia].
Qed.

(** C6 -- Chunker round-trip.  For every text and every positive
    [max_length], [chunk_to_length] returns, the concatenation of the
    chunks in order is the text, and every chunk but the last has exactly
    [max_length] characters. *)
Theorem chunk_to_length_round_trip text max_length :
  0 < max_length →
  ∃ chunks,
    chunk_to_length text max_length = Ok chunks ∧
    concat_str chunks = text ∧
    ∀ i chunk, (S i < length chunks)%nat → chunks !! i = Some chunk →
               len chunk = max_length.
Proof.
  intros Hm.
  destruct (chunk_loop_spec max_length (S (String.length text)) Hm text [])
    as (body & last & Hrun & Hcat & Hbody & _); [lia|].
  exists (body ++ [last]). split_and!; [exact Hrun | exact Hcat |].
  intros i chunk Hi Hlook. rewrite length_app in Hi. simpl in Hi.
  rewrite lookup_app_l in Hlook by lia.
  rewrite Forall_lookup in Hbody. eauto.
Qed.

(** C7, as amended -- Chunk count.  For a positive chunk size [S], a text
    of [N >= 1] characters is cut into exactly [ceil(N/S)] chunks, and the
    empty text into exactly one chunk, the empty string. *)
Theorem chunk_to_length_count text max_length :
  0 < max_length →
  ∃ chunks,
    chunk_to_length text max_length = Ok chunks ∧
    (text ≠ EmptyString →
       length chunks = ceil_div (String.length text) (Z.to_nat max_length)) ∧
    (text = EmptyString → chunks = [EmptyString]).
Proof.
  intros Hm.
  destruct (chunk_loop_spec max_length (S (String.length text)) Hm text [])
    as (body & last & Hrun & _ & _ & _ & _ & Hcount); [lia|].
  exists (body ++ [last]). split_and!; [exact Hrun | exact Hcount |].
  intros ->. unfold chunk_to_length in Hrun. simpl in Hrun.
  destruct (Z.gtb_spec (len EmptyString) max_length) as [H|H].
  - unfold len in H. simpl in H. lia.
  - congruence.
Qed.

(** Witness of C6. *)
Lemma chunk_to_length_round_trip_witness :
  ∃ chunks,
    chunk_to_length "hello world" 4 = Ok chunks ∧
    concat_str chunks = "hello world"%string ∧
    ∀ i chunk, (S i < length chunks)%nat → chunks !! i = Some chunk → len chunk = 4.
Proof. apply (chunk_to_length_round_trip "hello world" 4). lia. Defined.

(** Witness of C7, as amended. *)
Lemma chunk_to_length_count_witness :
  ∃ chunks,
    chunk_to_length "hello world" 4 = Ok chunks ∧
    ("hello world"%string ≠ EmptyString →
       length chunks = ceil_div (String.length "hello world") (Z.to_nat 4)) ∧
    ("hello world"%string = EmptyString → chunks = [EmptyString]).
Proof. apply (chunk_to_length_count "hello world" 4). lia. Defined.

(** C7 fails as stated: the empty text ([N = 0]) is cut into one chunk,
    and [ceil(0/512)] is zero. *)
Lemma chunk_to_length_count_counterexample :
  ∃ chunks,
    chunk_to_length "" 512 = Ok chunks ∧
    length chunks = 1%nat ∧
    ceil_div (String.length "") (Z.to_nat 512) = 0%nat.
Proof. exists [EmptyString]. split_and!; reflexivity. Qed.

(** ** Dictionaries *)

Lemma dict_get_elem_of {V} k (v : V) (d : dict V) :
  dict_get k d = Some v → (k, v) ∈ d.
Proof.
  induction d as [|[k' v'] d IH]; simpl; [done|].
  destruct (String.eqb_spec k k') as [->|Hne].
  - intros [= ->]. left.
  - intros Hget. right. auto.
Qed.

Lemma dict_set_Forall {V} (P : string * V → Prop) k v (d : dict V) :
  P (k, v) → Forall P d → Forall P (dict_set k v d).
Proof.
  intros Hkv. induction 1 as [|[k' v'] d Hx Hd IH]; simpl.
  - repeat constructor. exact Hkv.
  - destruct (String.eqb k k'); constructor; auto.
Qed.

Lemma dict_get_keys {V} k (d : dict V) : dict_get k d = None ↔ k ∉ keys d.
Proof.
  unfold keys. induction d as [|[k' v'] d IH]; simpl.
  - split; [intros _; apply not_elem_of_nil | done].
  - destruct (String.eqb_spec k k') as [->|Hne].
    + split; [done | intros Hn; destruct Hn; left].
    + rewrite IH, not_elem_of_cons. tauto.
Qed.

Lemma keys_dict_set_present {V} k (v : V) (d : dict V) :
  k ∈ keys d → keys (dict_set k v d) = keys d.
Proof.
  unfold keys. induction d as [|[k' v'] d IH]; simpl.
  - intros Hin. by apply elem_of_nil in Hin.
  - destruct (String.eqb_spec k k') as [->|Hne]; [done|].
    intros Hin. apply elem_of_cons in Hin as [?|Hin]; [done|].
    simpl. f_equal. auto.
Qed.

Lemma keys_dict_set_absent {V} k (v : V) (d : dict V) :
  k ∉ keys d → keys (dict_set k v d) = keys d ++ [k].
Proof.
  unfold keys. induction d as [|[k' v'] d IH]; simpl; [done|].
  intros Hn. apply not_elem_of_cons in Hn as [Hne Hn].
  destruct (String.eqb_spec k k') as [->|_]; [done|].
  simpl. f_equal. auto.
Qed.

Lemma NoDup_keys_dict_set {V} k (v : V) (d : dict V) :
  NoDup (keys d) → NoDup (keys (dict_set k v d)).
Proof.
  intros Hd. destruct (decide (k ∈ keys d)) as [Hin|Hn].
  - by rewrite keys_dict_set_present.
  - rewrite keys_dict_set_absent by done.
    apply NoDup_app. split_and!; [done | | apply NoDup_singleton].
    intros x Hx Hx'. apply list_elem_of_singleton in Hx' as ->. done.
Qed.

(** ** The scorer *)

Lemma embed_fold_Forall (P : string * list (nat * Q) → Prop) (idxs : list nat)
    (rows : list (string * list Q)) (d : dict (list (nat * Q))) :
  Forall P d →
  Forall (λ '(query, row), P (query, zip idxs row)) rows →
  Forall P (foldl (λ results '(query, query_scores),
                     dict_set query (zip idxs query_scores) results) d rows).
Proof.
  intros Hd Hrows. revert d Hd.
  induction Hrows as [|[q row] rows Hrow _ IH]; intros d Hd; simpl; [done|].
  apply IH. by apply dict_set_Forall.
Qed.

(** The ranking [embed] stores for a query is the row of scores of one
    of its occurrences, paired with the chunk indices in ascending order. *)
Lemma embed_entries `{Embedder} (queries chunks : list string) :
  Forall (λ '(query, ranking),
            ∃ i u, queries !! i = Some query ∧
                   encode_query queries !! i = Some u ∧
                   ranking = zip (seq 0 (length chunks))
                                 (dot u <$> encode_document chunks))
         (embed queries chunks).
Proof.
  unfold embed. apply embed_fold_Forall; [constructor|].
  apply Forall_lookup. intros i [q row] Hi.
  apply lookup_zip_with_Some in Hi as (q' & row' & [= <- <-] & Hq & Hrow).
  unfold matmul_T in Hrow. rewrite list_lookup_fmap in Hrow.
  destruct (encode_query queries !! i) as [u|] eqn:Hu; [|done].
  injection Hrow as <-. eauto.
Qed.

(** C4, as amended -- Scorer output.  The list [embed] returns for a
    query holds one pair for every chunk, in ascending order of the chunk
    index ([0], [1], ...), the pair of chunk [j] carrying the score of the
    query against chunk [j]; it is not ordered by score. *)
Theorem embed_chunk_index_order `{Embedder} (queries chunks : list string)
    (query : string) (ranking : list (nat * Q)) :
  dict_get query (embed queries chunks) = Some ranking →
  ranking.*1 = seq 0 (length chunks) ∧
  ∃ i u, queries !! i = Some query ∧
         encode_query queries !! i = Some u ∧
         ranking.*2 = dot u <$> encode_document chunks.
Proof.
  intros Hget. apply dict_get_elem_of in Hget.
  pose proof (embed_entries queries chunks) as Hall.
  rewrite Forall_forall in Hall.
  destruct (Hall _ Hget) as (i & u & Hq & Hu & ->).
  assert (Hlen : length (seq 0 (length chunks)) = length (dot u <$> encode_document chunks)).
  { by rewrite length_seq, length_fmap, encode_document_length. }
  split.
  - by apply fst_zip; rewrite Hlen.
  - exists i, u. split_and!; [done..|]. by apply snd_zip; rewrite Hlen.
Qed.

(** Witness of C4, as amended. *)
Lemma embed_chunk_index_order_witness :
  let ranking := [(0%nat, 9506%Q); (1%nat, 9702%Q)] in
  ranking.*1 = seq 0 (length ["a"; "c"]) ∧
  ∃ i u, ["b"] !! i = Some "b" ∧
         @encode_query first_char_embedder ["b"] !! i = Some u ∧
         ranking.*2 = dot u <$> @encode_document first_char_embedder ["a"; "c"].
Proof.
  apply (@embed_chunk_index_order first_char_embedder ["b"] ["a"; "c"] "b").
  reflexivity.
Defined.

(** C4 fails as stated: for the query ["b"] and the chunks ["a"] and
    ["c"], the first pair of the list has a lower score than the second. *)
Lemma embed_descending_counterexample :
  ∃ c0 s0 c1 s1,
    dict_get "b" (@embed first_char_embedder ["b"] ["a"; "c"])
      = Some [(c0, s0); (c1, s1)] ∧
    (s0 < s1)%Q.
Proof.
  exists 0%nat, 9506%Q, 1%nat, 9702%Q. split; reflexivity.
Qed.

(** ** The allocation loop *)

Lemma index_Ok {A} (l : list A) i x : index l i = Ok x ↔ l !! i = Some x.
Proof. unfold index. destruct (l !! i); split; congruence. Qed.

Lemma queued_cons query doc_scores items :
  queued ((query, doc_scores) :: items) = (length doc_scores + queued items)%nat.
Proof. reflexivity. Qed.

(** A pass over queues that are not all empty shortens them. *)
Lemma queued_pop_all items :
  (queued (pop_all items) <= queued items)%nat ∧
  (0 < queued items → queued (pop_all items) < queued items)%nat.
Proof.
  induction items as [|[query doc_scores] items [IHle IHlt]]; [compute; lia|].
  change (pop_all ((query, doc_scores) :: items))
    with ((query, tail doc_scores) :: pop_all items).
  rewrite !queued_cons. destruct doc_scores as [|top doc_scores]; simpl; lia.
Qed.

Section AllocationLoop.

Context (chunked_docs : list (list string)) (max_characters : Z).

(** *** The loop body *)

Lemma chunk_at_Ok doc_idx chunk_idx chunk :
  chunk_at chunked_docs doc_idx chunk_idx = Ok chunk ↔
  ∃ chunks, chunked_docs !! doc_idx = Some chunks ∧ chunks !! chunk_idx = Some chunk.
Proof.
  unfold chunk_at, index. destruct (chunked_docs !! doc_idx) as [chunks|]; simpl.
  - destruct (chunks !! chunk_idx) as [chunk'|] eqn:Hc.
    + split; [intros [= <-]; eauto | intros (? & [= <-] & ?); congruence].
    + split; [done | intros (? & [= <-] & ?); congruence].
  - split; [done | intros (? & ? & _); done].
Qed.

(** [consider] leaves the selection as it is, or appends one chunk index
    that was not selected and fits. *)
Lemma consider_cases d c s st st' :
  consider chunked_docs max_characters (d, c, s) st = Ok st' →
  st' = st ∨
  ∃ chunk selected,
    chunk_at chunked_docs d c = Ok chunk ∧
    document_embeddings st !! d = Some selected ∧
    (c ∉ selected) ∧
    total_chars st + len chunk <= max_characters ∧
    st' = {| document_embeddings :=
               <[d := selected ++ [c]]> (document_embeddings st);
             total_chars := total_chars st + len chunk |}.
Proof.
  unfold consider.
  destruct (chunk_at chunked_docs d c) as [chunk|] eqn:Hc; simpl; [|done].
  destruct (Z.gtb_spec (total_chars st + len chunk) max_characters) as [Hgt|Hle].
  { intros [= <-]. by left. }
  destruct (index (document_embeddings st) d) as [selected|] eqn:Hs; simpl; [|done].
  case_bool_decide as Hin.
  { intros [= <-]. by left. }
  intros [= <-]. right. exists chunk, selected.
  apply index_Ok in Hs. done.
Qed.

(** The running total never decreases: a candidate that does not fit
    when it is popped would not fit in any later pass either. *)
Lemma consider_total_chars_mono top st st' :
  consider chunked_docs max_characters top st = Ok st' →
  total_chars st <= total_chars st'.
Proof.
  destruct top as [[d c] s]. intros Hc.
  apply consider_cases in Hc as [->|(chunk & selected & _ & _ & _ & _ & ->)];
    [done | unfold len; simpl; lia].
Qed.

Lemma consider_length top st st' :
  consider chunked_docs max_characters top st = Ok st' →
  length (document_embeddings st') = length (document_embeddings st).
Proof.
  destruct top as [[d c] s]. intros Hc.
  apply consider_cases in Hc as [->|(chunk & selected & _ & _ & _ & _ & ->)];
    [done | simpl; apply length_insert].
Qed.

(** With valid indices [consider] raises nothing. *)
Lemma consider_total top st :
  in_range chunked_docs top →
  (length chunked_docs <= length (document_embeddings st))%nat →
  ∃ st', consider chunked_docs max_characters top st = Ok st'.
Proof.
  destruct top as [[d c] s]. intros [chunk Hc] Hlen.
  simpl in Hc. unfold consider. rewrite Hc. simpl.
  destruct (_ >? _); [eauto|].
  apply chunk_at_Ok in Hc as (chunks & Hd & _).
  apply lookup_lt_Some in Hd.
  destruct (lookup_lt_is_Some_2 (document_embeddings st) d) as [selected Hs]; [lia|].
  apply index_Ok in Hs as Hs'. rewrite Hs'. simpl.
  case_bool_decide; eauto.
Qed.

(** *** The passes *)

Lemma consider_all_app tops1 tops2 st :
  consider_all chunked_docs max_characters (tops1 ++ tops2) st =
  consider_all chunked_docs max_characters tops1 st
    ≫= consider_all chunked_docs max_characters tops2.
Proof.
  revert st. induction tops1 as [|top tops1 IH]; intros st; simpl; [done|].
  destruct (consider _ _ top st) as [st1|e]; simpl; [apply IH | done].
Qed.

(** One pass visits the heads of the queues in the order of the
    dictionary, and leaves every queue without its head. *)
Lemma round_robin_heads items st :
  round_robin chunked_docs max_characters items st =
  st' ← consider_all chunked_docs max_characters (heads items).*2 st;
  Ok (pop_all items, st').
Proof.
  revert st. induction items as [|[query [|top doc_scores]] items IH]; intros st.
  - reflexivity.
  - simpl. rewrite IH.
    by destruct (consider_all _ _ _ st) as [st'|e].
  - simpl. destruct (consider _ _ top st) as [st1|e]; simpl; [|done].
    rewrite IH. by destruct (consider_all _ _ _ st1) as [st'|e].
Qed.

(** The loop exits after some number of full passes: what it has visited
    is the [schedule] of these passes, and the queues have lost one head
    in each. *)
Lemma allocate_loop_schedule fuel :
  ∀ items st items' st',
    allocate_loop fuel chunked_docs max_characters items st = Ok (items', st') →
    ∃ rounds,
      items' = Nat.iter rounds pop_all items ∧
      consider_all chunked_docs max_characters (schedule rounds items).*2 st
        = Ok st' ∧
      (total_chars st' <? max_characters) && (0 <? queued items')%nat = false.
Proof.
  induction fuel as [|fuel IH]; intros items st items' st'; simpl;
    destruct ((total_chars st <? max_characters) && (0 <? queued items)%nat)
      eqn:Hcond; try done.
  - intros [= <- <-]. by exists 0%nat.
  - rewrite round_robin_heads.
    destruct (consider_all _ _ (heads items).*2 st) as [st1|e] eqn:Hpass;
      simpl; [|done].
    intros Hrun. destruct (IH _ _ _ _ Hrun) as (rounds & -> & Hrest & Hexit).
    exists (S rounds). rewrite Nat.iter_succ_r. split_and!; [done| |done].
    simpl. rewrite fmap_app, consider_all_app, Hpass. exact Hrest.
  - intros [= <- <-]. by exists 0%nat.
Qed.

(** *** Invariants *)

Section Invariant.

Context (Inv : selection → Prop).
Hypothesis consider_Inv : ∀ top st st',
  Inv st → consider chunked_docs max_characters top st = Ok st' → Inv st'.

Lemma consider_all_preserves tops :
  ∀ st st',
    Inv st → consider_all chunked_docs max_characters tops st = Ok st' → Inv st'.
Proof.
  induction tops as [|top tops IH]; intros st st' Hst; simpl.
  - by intros [= <-].
  - destruct (consider _ _ top st) as [st1|e] eqn:Hc; simpl; [|done].
    eauto.
Qed.

Lemma allocate_preserves items st items' st' :
  Inv st →
  allocate chunked_docs max_characters items st = Ok (items', st') →
  Inv st'.
Proof.
  intros Hst Hrun.
  apply allocate_loop_schedule in Hrun as (rounds & _ & Hall & _).
  eapply consider_all_preserves; eauto.
Qed.

End Invariant.

(** *** The loop raises nothing and exits *)

Lemma pop_all_in_range items :
  queues_in_range chunked_docs items → queues_in_range chunked_docs (pop_all items).
Proof.
  unfold queues_in_range, pop_all. rewrite Forall_fmap.
  intros Hall. eapply Forall_impl; [exact Hall|].
  intros [query [|top doc_scores]]; simpl; [done|].
  by inversion 1.
Qed.

Lemma heads_in_range items :
  queues_in_range chunked_docs items →
  Forall (in_range chunked_docs) (heads items).*2.
Proof.
  induction 1 as [|[query [|top doc_scores]] items Hq _ IH]; simpl; [done..|].
  constructor; [by inversion Hq | exact IH].
Qed.

Lemma schedule_in_range rounds :
  ∀ items, queues_in_range chunked_docs items →
           Forall (in_range chunked_docs) (schedule rounds items).*2.
Proof.
  induction rounds as [|rounds IH]; intros items Hitems; simpl; [constructor|].
  rewrite fmap_app. apply Forall_app. split.
  - by apply heads_in_range.
  - by apply IH, pop_all_in_range.
Qed.

Lemma consider_all_total tops :
  Forall (in_range chunked_docs) tops →
  ∀ st, (length chunked_docs <= length (document_embeddings st))%nat →
  ∃ st', consider_all chunked_docs max_characters tops st = Ok st' ∧
         length (document_embeddings st') = length (document_embeddings st).
Proof.
  induction 1 as [|top tops Htop _ IH]; intros st Hlen; simpl; [eauto|].
  destruct (consider_total top st Htop Hlen) as [st1 Hst1]. rewrite Hst1. simpl.
  apply consider_length in Hst1.
  destruct (IH st1) as (st' & -> & Hlen'); [lia|].
  exists st'. split; [done | lia].
Qed.

(** The queued candidates are fuel enough. *)
Lemma allocate_loop_total fuel :
  ∀ items st,
    queues_in_range chunked_docs items →
    (length chunked_docs <= length (document_embeddings st))%nat →
    (queued items <= fuel)%nat →
    ∃ items' st',
      allocate_loop fuel chunked_docs max_characters items st = Ok (items', st').
Proof.
  induction fuel as [|fuel IH]; intros items st Hrange Hlen Hfuel; simpl;
    destruct (total_chars st <? max_characters); simpl; eauto;
    destruct (Nat.ltb_spec 0 (queued items)) as [Hpos|Hzero]; eauto; [lia|].
  rewrite round_robin_heads.
  destruct (consider_all_total (heads items).*2 (heads_in_range _ Hrange) st Hlen)
    as (st1 & -> & Hlen1).
  simpl. apply IH.
  - by apply pop_all_in_range.
  - lia.
  - pose proof (queued_pop_all items) as [_ Hlt]. specialize (Hlt Hpos). lia.
Qed.

(** When the budget is spent the loop does not run. *)
Lemma allocate_loop_spent fuel items st :
  max_characters <= total_chars st →
  allocate_loop fuel chunked_docs max_characters items st = Ok (items, st).
Proof.
  intros Hspent.
  destruct fuel; simpl;
    destruct (Z.ltb_spec (total_chars st) max_characters); (lia || done).
Qed.

End AllocationLoop.

(** ** The stable descending sort *)

Lemma insert_desc_perm x l : insert_desc x l ≡ₚ x :: l.
Proof.
  induction l as [|y l IH]; simpl; [done|].
  destruct (Qle_bool (score_of y) (score_of x)); [done|].
  rewrite IH. apply perm_swap.
Qed.

Lemma sorted_desc_perm l : sorted_desc l ≡ₚ l.
Proof.
  induction l as [|x l IH]; simpl; [done|].
  rewrite insert_desc_perm. by constructor.
Qed.

Lemma ranked_before_score a b : ranked_before a b → (score_of b <= score_of a)%Q.
Proof.
  intros [Hlt|[Heq _]]; [by apply Qlt_le_weak|].
  rewrite Heq. apply Qle_refl.
Qed.

(** A candidate that does not score less, and stood earlier, is ranked before. *)
Lemma ranked_before_intro a b :
  (score_of b <= score_of a)%Q → position_before a b → ranked_before a b.
Proof.
  intros Hle Hpos. apply Qle_lt_or_eq in Hle as [Hlt|Heq]; [by left|].
  right. split; [by symmetry | done].
Qed.

Lemma insert_desc_sorted x l :
  StronglySorted ranked_before l →
  Forall (position_before x) l →
  StronglySorted ranked_before (insert_desc x l).
Proof.
  induction 1 as [|y l Hl IH Hy]; intros Hx; simpl.
  - repeat constructor.
  - apply Forall_cons in Hx as [Hxy Hxl].
    destruct (Qle_bool (score_of y) (score_of x)) eqn:Hcmp.
    + apply Qle_bool_iff in Hcmp.
      constructor; [by constructor|].
      constructor; [by apply ranked_before_intro|].
      rewrite Forall_forall in Hy, Hxl. apply Forall_forall. intros z Hz.
      apply ranked_before_intro; [|by apply Hxl].
      eapply Qle_trans; [apply ranked_before_score, Hy, Hz | exact Hcmp].
    + constructor; [by apply IH|].
      rewrite insert_desc_perm. constructor; [|done].
      left. apply Qnot_le_lt. intros Hle.
      apply Qle_bool_iff in Hle. congruence.
Qed.

(** Sorting a list that is in the order of (document index, chunk index)
    leaves it in descending order of score, candidates of equal score in
    the order of (document index, chunk index). *)
Lemma sorted_desc_ranked l :
  StronglySorted position_before l → StronglySorted ranked_before (sorted_desc l).
Proof.
  induction 1 as [|x l Hl IH Hx]; simpl; [constructor|].
  apply insert_desc_sorted; [done|]. by rewrite sorted_desc_perm.
Qed.

(** ** The merged queues *)

Lemma embed_fold_NoDup (idxs : list nat) (rows : list (string * list Q))
    (d : dict (list (nat * Q))) :
  NoDup (keys d) →
  NoDup (keys (foldl (λ results '(query, query_scores),
                        dict_set query (zip idxs query_scores) results) d rows)).
Proof.
  revert d. induction rows as [|[q row] rows IH]; intros d Hd; simpl; [done|].
  apply IH. by apply NoDup_keys_dict_set.
Qed.

Lemma embed_NoDup_keys `{Embedder} (queries chunks : list string) :
  NoDup (keys (embed queries chunks)).
Proof. unfold embed. apply embed_fold_NoDup. constructor. Qed.

(** The candidates one ranking contributes: of one document, with the
    chunk indices ascending. *)
Lemma ranking_block doc_idx n :
  ∀ start (row : list Q),
    StronglySorted position_before
      ((λ '(chunk_idx, score), (doc_idx, chunk_idx, score)) <$> zip (seq start n) row) ∧
    Forall (λ top : candidate,
              top.1.1 = doc_idx ∧ (start <= top.1.2 < start + n)%nat)
      ((λ '(chunk_idx, score), (doc_idx, chunk_idx, score)) <$> zip (seq start n) row).
Proof.
  induction n as [|n IH]; intros start [|score row]; simpl;
    try (split; constructor; fail).
  destruct (IH (S start) row) as [Hsorted Hall]. split.
  - constructor; [done|].
    eapply Forall_impl; [exact Hall|].
    intros [[d c] s]. simpl. intros [-> Hc]. right. simpl. lia.
  - constructor; [simpl; lia|].
    eapply Forall_impl; [exact Hall|]. simpl. intros top [? ?]. lia.
Qed.

(** The inner loop of the merge: every queue goes from [A] to [B], when
    appending the ranking of a query to a queue in [A] gives one in [B]. *)
Lemma add_document_invariant (A B : list candidate → Prop) doc_idx
    (embedded_doc : dict (list (nat * Q)))
    (query_embeddings : dict (list candidate)) :
  A [] → (∀ doc_scores, A doc_scores → B doc_scores) →
  NoDup (keys embedded_doc) →
  (∀ query ranking doc_scores,
     (query, ranking) ∈ embedded_doc → A doc_scores →
     B (doc_scores ++
        ((λ '(chunk_idx, score), (doc_idx, chunk_idx, score)) <$> ranking))) →
  Forall (λ item, A item.2) query_embeddings →
  Forall (λ item, B item.2) (add_document query_embeddings (doc_idx, embedded_doc)).
Proof.
  intros HA0 HAB Hnd Hstep Hqe. unfold add_document.
  assert (Hinv : Forall (λ item, B item.2 ∧ (item.1 ∈ keys embedded_doc → A item.2))
                        query_embeddings).
  { eapply Forall_impl; [exact Hqe|]. simpl. auto. }
  clear Hqe. revert query_embeddings Hinv.
  induction embedded_doc as [|[query ranking] todo IH]; intros qe Hinv.
  { simpl. eapply Forall_impl; [exact Hinv|]. by intros ? [? _]. }
  unfold keys in *. rewrite fmap_cons in *. simpl in Hnd.
  apply NoDup_cons in Hnd as [Hfresh Hnd].
  simpl foldl. apply IH; [done | |].
  { intros q r ds Hin. apply (Hstep q). by right. }
  set (qe1 := if dict_mem query qe then qe else dict_set query [] qe).
  assert (Hqe1 : Forall (λ item, B item.2 ∧ (item.1 ∈ query :: todo.*1 → A item.2)) qe1).
  { subst qe1. destruct (dict_mem query qe); [done|].
    apply dict_set_Forall; [|done]. simpl. auto. }
  apply dict_set_Forall.
  - simpl. split; [|done].
    apply (Hstep query); [left|].
    destruct (dict_get query qe1) as [old|] eqn:Hget; simpl; [|done].
    apply dict_get_elem_of in Hget. rewrite Forall_forall in Hqe1.
    apply (Hqe1 _ Hget). left.
  - eapply Forall_impl; [exact Hqe1|].
    intros [k v] [HB HA]. split; [done|]. intros Hin. apply HA. by right.
Qed.

Lemma merged_upto_mono chunked_docs m n doc_scores :
  (m <= n)%nat → merged_upto chunked_docs m doc_scores →
  merged_upto chunked_docs n doc_scores.
Proof.
  intros Hmn [Hsorted Hall]. split; [done|].
  eapply Forall_impl; [exact Hall|]. simpl. intros top [? ?]. split; [lia|done].
Qed.

(** Appending the ranking of document [doc_idx] to a queue merged up to
    it gives a queue merged up to the next document. *)
Lemma merged_upto_append `{Embedder} chunked_docs doc_idx chunks queries query
    ranking doc_scores :
  chunked_docs !! doc_idx = Some chunks →
  (query, ranking) ∈ embed queries chunks →
  merged_upto chunked_docs doc_idx doc_scores →
  merged_upto chunked_docs (S doc_idx)
    (doc_scores ++ ((λ '(chunk_idx, score), (doc_idx, chunk_idx, score)) <$> ranking)).
Proof.
  intros Hdoc Hin [Hsorted Hall].
  pose proof (embed_entries queries chunks) as Hentries.
  rewrite Forall_forall in Hentries.
  destruct (Hentries _ Hin) as (i & u & _ & _ & ->).
  destruct (ranking_block doc_idx (length chunks) 0
              (dot u <$> encode_document chunks)) as [Hblock Hidx].
  simpl in Hblock, Hidx. split.
  - apply StronglySorted_app_2; [|done..].
    intros a b Ha Hb. rewrite Forall_forall in Hall, Hidx.
    destruct (Hall _ Ha) as [Hlt _]. destruct (Hidx _ Hb) as [Heq _].
    left. lia.
  - apply Forall_app. split.
    + eapply Forall_impl; [exact Hall|]. simpl. intros top [? ?]. split; [lia|done].
    + eapply Forall_impl; [exact Hidx|]. simpl. intros top [Hd Hc]. split; [lia|].
      unfold in_range. rewrite Hd.
      destruct (lookup_lt_is_Some_2 chunks (top.1.2)) as [chunk Hchunk]; [lia|].
      exists chunk. apply chunk_at_Ok. eauto.
Qed.

Lemma merge_queues_from `{Embedder} queries (done_docs rest : list (list string))
    (query_embeddings : dict (list candidate)) :
  Forall (λ item, merged_upto (done_docs ++ rest) (length done_docs) item.2)
         query_embeddings →
  Forall (λ item, merged_upto (done_docs ++ rest) (length (done_docs ++ rest)) item.2)
         (foldl add_document query_embeddings
            (enumerate_from (length done_docs) (embed queries <$> rest))).
Proof.
  revert done_docs query_embeddings.
  induction rest as [|chunks rest IH]; intros done_docs qe Hqe; simpl.
  { by rewrite app_nil_r in *. }
  specialize (IH (done_docs ++ [chunks])).
  rewrite <- app_assoc, length_app in IH. simpl in IH.
  rewrite Nat.add_1_r in IH. apply IH.
  apply add_document_invariant
    with (A := merged_upto (done_docs ++ chunks :: rest) (length done_docs)).
  - split; constructor.
  - intros ds. apply merged_upto_mono. lia.
  - apply embed_NoDup_keys.
  - intros query ranking ds Hin. eapply merged_upto_append; [|exact Hin].
    by rewrite lookup_app_r, Nat.sub_diag.
  - exact Hqe.
Qed.

(** Every queue [predict] builds is sorted by rank and holds valid
    candidates only. *)
Lemma build_queues_spec `{Embedder} (queries : list string)
    (chunked_docs : list (list string)) :
  Forall (λ item, StronglySorted ranked_before item.2 ∧
                  Forall (in_range chunked_docs) item.2)
         (build_queues queries chunked_docs).
Proof.
  unfold build_queues, sort_queues, merge_queues, enumerate.
  pose proof (merge_queues_from queries [] chunked_docs []) as Hmerged.
  simpl in Hmerged. specialize (Hmerged (Forall_nil_2 _)).
  rewrite Forall_fmap. eapply Forall_impl; [exact Hmerged|].
  intros [query doc_scores] [Hsorted Hall]. simpl in *. split.
  - by apply sorted_desc_ranked.
  - rewrite sorted_desc_perm. eapply Forall_impl; [exact Hall|]. by intros ? [_ ?].
Qed.

(** ** The texts of a selection *)

Lemma mapM_Ok {A B} (f : A → result B) (l : list A) (k : list B) :
  mapM f l = Ok k ↔ Forall2 (λ x y, f x = Ok y) l k.
Proof.
  revert k. induction l as [|x l IH]; intros k; simpl.
  - split; [intros [= <-]; constructor | by inversion 1].
  - destruct (f x) as [y|e] eqn:Hx; simpl.
    + destruct (mapM f l) as [k'|e] eqn:Hl; simpl.
      * split.
        -- intros [= <-]. constructor; [done | by apply IH].
        -- inversion 1 as [|? y' ? k'' Hy Hk]; subst.
           apply IH in Hk. unfold mret, result_ret. congruence.
      * split; [done|].
        inversion 1 as [|? y' ? k'' Hy Hk]; subst. by apply IH in Hk.
    + split; [done|]. inversion 1; congruence.
Qed.

Lemma enumerate_from_lookup {A} start (l : list A) i :
  enumerate_from start l !! i = (λ x, ((start + i)%nat, x)) <$> l !! i.
Proof.
  revert start i. induction l as [|x l IH]; intros start [|i]; simpl; try done.
  - by rewrite Nat.add_0_r.
  - rewrite IH. by rewrite Nat.add_succ_r.
Qed.

Lemma enumerate_from_insert {A} start (l : list A) i x :
  enumerate_from start (<[i:=x]> l) = <[i:=((start + i)%nat, x)]> (enumerate_from start l).
Proof.
  revert start i. induction l as [|y l IH]; intros start [|i]; simpl; try done.
  - by rewrite Nat.add_0_r.
  - rewrite IH. by rewrite Nat.add_succ_r.
Qed.

Lemma sum_Z_app l1 l2 : sum_Z (l1 ++ l2) = sum_Z l1 + sum_Z l2.
Proof. induction l1 as [|x l1 IH]; simpl; [done | rewrite IH; lia]. Qed.

Lemma total_fragment_chars_insert fragments d fs chunk :
  fragments !! d = Some fs →
  total_fragment_chars (<[d := fs ++ [chunk]]> fragments)
  = total_fragment_chars fragments + len chunk.
Proof.
  intros Hd. rewrite insert_take_drop by (eapply lookup_lt_Some; eauto).
  rewrite <- (take_drop_middle fragments d fs Hd) at 3.
  unfold total_fragment_chars.
  rewrite !concat_app, !concat_cons, !fmap_app, !sum_Z_app. simpl. lia.
Qed.

Lemma chunk_texts_initial chunked_docs n :
  chunk_texts chunked_docs (replicate n []) = Ok (replicate n []).
Proof.
  unfold chunk_texts, enumerate. generalize 0%nat.
  induction n as [|n IH]; intros start; simpl; [done|].
  by rewrite IH.
Qed.

Lemma total_fragment_chars_initial n : total_fragment_chars (replicate n []) = 0.
Proof. unfold total_fragment_chars. induction n as [|n IH]; simpl; done. Qed.

Lemma initial_selection_ok chunked_docs max_characters documents :
  selection_ok chunked_docs max_characters (initial_selection documents).
Proof.
  unfold selection_ok, initial_selection. simpl. split_and!.
  - apply Forall_replicate, NoDup_nil_2.
  - lia.
  - exists (replicate (length documents) []).
    split; [apply chunk_texts_initial | apply total_fragment_chars_initial].
Qed.

(** The loop body keeps the selection well formed. *)
Lemma consider_selection_ok chunked_docs max_characters top st st' :
  selection_ok chunked_docs max_characters st →
  consider chunked_docs max_characters top st = Ok st' →
  selection_ok chunked_docs max_characters st'.
Proof.
  destruct top as [[d c] s]. intros (Hnodup & Hbudget & frags & Htexts & Hsum) Hc.
  apply consider_cases in Hc
    as [->|(chunk & selected & Hchunk & Hsel & Hfresh & Hfit & ->)].
  { split_and!; eauto. }
  unfold selection_ok. simpl. split_and!.
  - apply Forall_insert; [done|].
    apply NoDup_app. split_and!.
    + eapply Forall_lookup_1; eauto.
    + intros x Hx Hx'. apply list_elem_of_singleton in Hx' as ->. done.
    + apply NoDup_singleton.
  - lia.
  - unfold chunk_texts, enumerate in *. apply mapM_Ok in Htexts.
    assert (Henum : enumerate_from 0 (document_embeddings st) !! d = Some (d, selected)).
    { rewrite enumerate_from_lookup, Hsel. done. }
    destruct (Forall2_lookup_l _ _ _ _ _ Htexts Henum) as (fs & Hfs & Hmap).
    exists (<[d := fs ++ [chunk]]> frags). split.
    + apply mapM_Ok. rewrite enumerate_from_insert. simpl.
      apply Forall2_insert; [done|].
      apply mapM_Ok, Forall2_app; [by apply mapM_Ok|].
      by constructor.
    + rewrite (total_fragment_chars_insert _ _ _ _ Hfs). lia.
Qed.

(** ** The chunked path of [predict] *)

Lemma chunk_all_total (converted_docs : list string) :
  ∃ chunked_docs,
    mapM (λ doc, chunk_to_length doc 512) converted_docs = Ok chunked_docs.
Proof.
  induction converted_docs as [|doc docs [chunked IH]]; [by exists []|].
  destruct (chunk_loop_spec 512 (S (String.length doc)) eq_refl doc [])
    as (body & last & Hrun & _); [lia|].
  exists ((body ++ [last]) :: chunked). apply mapM_Ok. constructor.
  - exact Hrun.
  - by apply mapM_Ok.
Qed.

Lemma convert_all_length `{Converter} documents document_filenames converted_docs :
  convert_all documents document_filenames = Ok converted_docs →
  (length converted_docs <= length documents)%nat.
Proof.
  unfold convert_all. intros Hall. apply mapM_Ok, Forall2_length in Hall.
  rewrite length_zip in Hall. lia.
Qed.

Lemma build_queues_in_range `{Embedder} queries chunked_docs :
  queues_in_range chunked_docs (build_queues queries chunked_docs).
Proof.
  unfold queues_in_range. eapply Forall_impl; [apply build_queues_spec|].
  by intros item [_ ?].
Qed.

(** The allocation raises nothing, exits, and leaves a well-formed
    selection. *)
Lemma allocate_total `{Embedder} queries chunked_docs max_characters st :
  (length chunked_docs <= length (document_embeddings st))%nat →
  selection_ok chunked_docs max_characters st →
  ∃ items' st',
    allocate chunked_docs max_characters (build_queues queries chunked_docs) st
      = Ok (items', st') ∧
    selection_ok chunked_docs max_characters st'.
Proof.
  intros Hlen Hok.
  destruct (allocate_loop_total chunked_docs max_characters
              (queued (build_queues queries chunked_docs))
              (build_queues queries chunked_docs) st)
    as (items' & st' & Hrun); [apply build_queues_in_range | done | lia |].
  exists items', st'. split; [exact Hrun|].
  eapply allocate_preserves; [|exact Hok|exact Hrun].
  intros top s s'. apply consider_selection_ok.
Qed.

Lemma select_chunks_total `{Embedder} queries documents converted_docs max_characters :
  (length converted_docs <= length documents)%nat →
  ∃ chunked_docs st,
    select_chunks queries documents converted_docs max_characters
      = Ok (chunked_docs, st) ∧
    mapM (λ doc, chunk_to_length doc 512) converted_docs = Ok chunked_docs ∧
    selection_ok chunked_docs max_characters st.
Proof.
  intros Hlen. destruct (chunk_all_total converted_docs) as [chunked Hchunked].
  assert (Hlen' : (length chunked <= length
            (document_embeddings (initial_selection documents)))%nat).
  { apply mapM_Ok, Forall2_length in Hchunked. simpl. rewrite length_replicate. lia. }
  destruct (allocate_total queries chunked max_characters
              (initial_selection documents) Hlen'
              (initial_selection_ok chunked max_characters documents))
    as (items' & st' & Hrun & Hok).
  exists chunked, st'. unfold select_chunks. rewrite Hchunked. simpl.
  rewrite Hrun. simpl. done.
Qed.

Lemma predict_chunked_path `{Embedder, Converter} queries documents
    document_filenames max_characters converted_docs :
  convert_all documents (split_lines document_filenames) = Ok converted_docs →
  max_characters <= sum_Z (len <$> converted_docs) →
  predict queries documents document_filenames max_characters =
  '(chunked_docs, st) ← select_chunks (split_lines queries) documents
                           converted_docs max_characters;
  chunk_texts chunked_docs (document_embeddings st).
Proof.
  intros Hconv Hlong. unfold predict. rewrite Hconv. simpl.
  destruct (Z.ltb_spec (sum_Z (len <$> converted_docs)) max_characters); [lia|done].
Qed.

(** On the chunked path [predict] returns the texts of a well-formed
    selection. *)
Lemma predict_chunked_total `{Embedder, Converter} queries documents
    document_filenames max_characters converted_docs :
  convert_all documents (split_lines document_filenames) = Ok converted_docs →
  max_characters <= sum_Z (len <$> converted_docs) →
  ∃ chunked_docs st fragments,
    select_chunks (split_lines queries) documents converted_docs max_characters
      = Ok (chunked_docs, st) ∧
    selection_ok chunked_docs max_characters st ∧
    chunk_texts chunked_docs (document_embeddings st) = Ok fragments ∧
    total_fragment_chars fragments = total_chars st ∧
    predict queries documents document_filenames max_characters = Ok fragments.
Proof.
  intros Hconv Hlong.
  destruct (select_chunks_total (split_lines queries) documents converted_docs
              max_characters (convert_all_length _ _ _ Hconv))
    as (chunked & st & Hsel & _ & Hok).
  pose proof Hok as (_ & _ & frags & Htexts & Hsum).
  exists chunked, st, frags. split_and!; try done.
  rewrite (predict_chunked_path _ _ _ _ _ Hconv Hlong), Hsel. simpl. exact Htexts.
Qed.

(** C2 -- Budget respected.  On the chunked path, for a budget that is
    not negative, [predict] returns and the characters of all fragments it
    returns, over all documents, do not exceed [max_characters]; and in the
    allocation loop, whatever the budget, the running total does not exceed
    it after a chunk is added. *)
Theorem budget_respected `{Embedder, Converter} queries documents
    document_filenames max_characters converted_docs :
  0 <= max_characters →
  convert_all documents (split_lines document_filenames) = Ok converted_docs →
  max_characters <= sum_Z (len <$> converted_docs) →
  (∃ fragments,
     predict queries documents document_filenames max_characters = Ok fragments ∧
     total_fragment_chars fragments <= max_characters) ∧
  (∀ chunked_docs top st st',
     consider chunked_docs max_characters top st = Ok st' →
     st' ≠ st → total_chars st' <= max_characters).
Proof.
  intros Hpos Hconv Hlong. split.
  - destruct (predict_chunked_total queries documents document_filenames
                max_characters converted_docs Hconv Hlong)
      as (chunked & st & frags & _ & (_ & Hbudget & _) & _ & Hsum & Hrun).
    exists frags. split; [done | lia].
  - intros chunked [[d c] s] st st' Hc Hne.
    apply consider_cases in Hc as [->|(chunk & selected & _ & _ & _ & Hfit & ->)];
      [done | simpl; lia].
Qed.

(** C8 -- No duplicate selection.  On the chunked path [predict] returns
    the texts of the chunk indices selected for each document, and no chunk
    index occurs twice in the list of a document. *)
Theorem no_duplicate_selection `{Embedder, Converter} queries documents
    document_filenames max_characters converted_docs :
  convert_all documents (split_lines document_filenames) = Ok converted_docs →
  max_characters <= sum_Z (len <$> converted_docs) →
  ∃ chunked_docs st fragments,
    select_chunks (split_lines queries) documents converted_docs max_characters
      = Ok (chunked_docs, st) ∧
    Forall NoDup (document_embeddings st) ∧
    chunk_texts chunked_docs (document_embeddings st) = Ok fragments ∧
    predict queries documents document_filenames max_characters = Ok fragments.
Proof.
  intros Hconv Hlong.
  destruct (predict_chunked_total queries documents document_filenames
              max_characters converted_docs Hconv Hlong)
    as (chunked & st & frags & Hsel & (Hnodup & _) & Htexts & _ & Hrun).
  by exists chunked, st, frags.
Qed.

(** C10 -- In-range indexing.  On the chunked path, every candidate the
    allocation loop can pop, in whatever round, carries a document index
    that is valid in the list of chunked documents (and in the list of
    selections) and a chunk index that is valid in the chunks of that
    document; the loop and the final mapping of the selected indices to
    their texts raise nothing, and [predict] returns. *)
Theorem popped_indices_in_range `{Embedder, Converter} queries documents
    document_filenames max_characters converted_docs :
  convert_all documents (split_lines document_filenames) = Ok converted_docs →
  max_characters <= sum_Z (len <$> converted_docs) →
  ∃ chunked_docs st fragments,
    select_chunks (split_lines queries) documents converted_docs max_characters
      = Ok (chunked_docs, st) ∧
    length (document_embeddings st) = length documents ∧
    (∀ rounds query doc_idx chunk_idx score,
       (query, (doc_idx, chunk_idx, score))
         ∈ schedule rounds (build_queues (split_lines queries) chunked_docs) →
       (doc_idx < length documents)%nat ∧
       ∃ chunks chunk,
         chunked_docs !! doc_idx = Some chunks ∧ chunks !! chunk_idx = Some chunk) ∧
    chunk_texts chunked_docs (document_embeddings st) = Ok fragments ∧
    predict queries documents document_filenames max_characters = Ok fragments.
Proof.
  intros Hconv Hlong.
  destruct (predict_chunked_total queries documents document_filenames
              max_characters converted_docs Hconv Hlong)
    as (chunked & st & frags & Hsel & _ & Htexts & _ & Hrun).
  assert (Hlens : (length chunked <= length documents)%nat ∧
                  length (document_embeddings st) = length documents).
  { pose proof (convert_all_length _ _ _ Hconv) as Hlen.
    unfold select_chunks in Hsel.
    destruct (mapM _ converted_docs) as [chunked'|] eqn:Hchunked; simpl in Hsel; [|done].
    destruct (allocate _ _ _ _) as [[items' st']|] eqn:Halloc; simpl in Hsel; [|done].
    injection Hsel as <- <-.
    apply mapM_Ok, Forall2_length in Hchunked. split; [lia|].
    refine (allocate_preserves _ _
              (λ s, length (document_embeddings s) = length documents)
              _ _ _ _ _ _ Halloc).
    - intros top s s' Hs Hc. apply consider_length in Hc. congruence.
    - apply length_replicate. }
  destruct Hlens as [Hchunked Hselected].
  exists chunked, st, frags. split_and!; try done.
  intros rounds query d c s Hin.
  pose proof (schedule_in_range chunked rounds _
                (build_queues_in_range (split_lines queries) chunked)) as Hall.
  rewrite Forall_forall in Hall.
  destruct (Hall (d, c, s)) as [chunk Hchunk].
  { apply list_elem_of_fmap. by exists (query, (d, c, s)). }
  simpl in Hchunk. apply chunk_at_Ok in Hchunk as (chunks & Hd & Hc).
  split; [|eauto].
  apply lookup_lt_Some in Hd. lia.
Qed.

Lemma StronglySorted_lookup {A} (R : A → A → Prop) (l : list A) i j a b :
  StronglySorted R l → (i < j)%nat → l !! i = Some a → l !! j = Some b → R a b.
Proof.
  intros Hsorted Hij Ha Hb.
  rewrite <- (take_drop j l) in Hsorted.
  eapply StronglySorted_app_1_elem_of; [exact Hsorted | |].
  - apply list_elem_of_lookup. exists i. rewrite lookup_take_lt by done. exact Ha.
  - apply list_elem_of_lookup. exists 0%nat. rewrite lookup_drop, Nat.add_0_r. exact Hb.
Qed.

(** C5 -- Merged-queue order.  In the queue [predict] builds for a query,
    of any two candidates the earlier has the strictly higher score, or the
    same score and the smaller (document index, chunk index). *)
Theorem merged_queue_order `{Embedder} (queries : list string)
    (chunked_docs : list (list string)) (query : string)
    (doc_scores : list candidate) (i j : nat) (a b : candidate) :
  dict_get query (build_queues queries chunked_docs) = Some doc_scores →
  (i < j)%nat → doc_scores !! i = Some a → doc_scores !! j = Some b →
  (score_of b < score_of a)%Q ∨
  (score_of a == score_of b)%Q ∧
  (a.1.1 < b.1.1 ∨ a.1.1 = b.1.1 ∧ a.1.2 < b.1.2)%nat.
Proof.
  intros Hget Hij Ha Hb. apply dict_get_elem_of in Hget.
  pose proof (build_queues_spec queries chunked_docs) as Hall.
  rewrite Forall_forall in Hall. destruct (Hall _ Hget) as [Hsorted _].
  exact (StronglySorted_lookup _ _ _ _ _ _ Hsorted Hij Ha Hb).
Qed.

(** ** The budget check that is not there *)

Lemma sum_len_nonneg (l : list string) : 0 <= sum_Z (len <$> l).
Proof.
  induction l as [|s l IH]; [done|].
  change (0 <= len s + sum_Z (len <$> l)). unfold len at 1. lia.
Qed.

(** C9, as amended -- No budget validation.  For a [max_characters] that
    is not positive [predict] rejects nothing: it converts the documents,
    a failure of the conversion is its result, and when the conversion
    succeeds it returns an empty list of fragments for every document. *)
Theorem non_positive_budget_not_rejected `{Embedder, Converter} queries documents
    document_filenames max_characters :
  max_characters <= 0 →
  (∀ converted_docs,
     convert_all documents (split_lines document_filenames) = Ok converted_docs →
     predict queries documents document_filenames max_characters
       = Ok (replicate (length documents) [])) ∧
  (∀ e,
     convert_all documents (split_lines document_filenames) = Err e →
     predict queries documents document_filenames max_characters = Err e).
Proof.
  intros Hmax. split.
  - intros converted Hconv.
    pose proof (sum_len_nonneg converted) as Hsum.
    rewrite (predict_chunked_path _ _ _ _ _ Hconv) by lia.
    unfold select_chunks.
    destruct (chunk_all_total converted) as [chunked ->]. simpl.
    unfold allocate. rewrite allocate_loop_spent by (simpl; lia). simpl.
    apply chunk_texts_initial.
  - intros e Hconv. unfold predict. by rewrite Hconv.
Qed.

(** ** The fast path *)

(** On the fast path [predict] unpacks every text into two names: it
    raises unless every text has two characters, and then it returns the
    first character of each. *)
Lemma predict_fast_path `{Embedder, Converter} queries documents
    document_filenames max_characters converted_docs :
  convert_all documents (split_lines document_filenames) = Ok converted_docs →
  sum_Z (len <$> converted_docs) < max_characters →
  predict queries documents document_filenames max_characters =
  mapM (λ item, '(doc, _) ← unpack_pair item; Ok [doc]) converted_docs.
Proof.
  intros Hconv Hshort. unfold predict. rewrite Hconv. simpl.
  destruct (Z.ltb_spec (sum_Z (len <$> converted_docs)) max_characters); [done|lia].
Qed.

Lemma unpack_pair_Ok item doc rest :
  unpack_pair item = Ok (doc, rest) → String.length item = 2%nat ∧ doc = str_take 1 item.
Proof.
  destruct item as [|a [|b [|c item]]]; simpl; try done.
  by intros [= <- <-].
Qed.

Lemma predict_fast_path_Ok `{Embedder, Converter} queries documents
    document_filenames max_characters converted_docs fragments :
  convert_all documents (split_lines document_filenames) = Ok converted_docs →
  sum_Z (len <$> converted_docs) < max_characters →
  predict queries documents document_filenames max_characters = Ok fragments →
  Forall (λ item, String.length item = 2%nat) converted_docs ∧
  fragments = (λ item, [str_take 1 item]) <$> converted_docs.
Proof.
  intros Hconv Hshort. rewrite (predict_fast_path _ _ _ _ _ Hconv Hshort).
  intros Hrun. apply mapM_Ok in Hrun. clear Hconv Hshort.
  induction Hrun as [|item frag items frags Hitem _ [IH1 IH2]]; [done|].
  destruct (unpack_pair item) as [[doc rest]|] eqn:Hunpack; simpl in Hitem; [|done].
  injection Hitem as <-. apply unpack_pair_Ok in Hunpack as [Hlen ->].
  split; [by constructor | by rewrite fmap_cons, IH2].
Qed.

(** C1, the code at the failing input -- one document whose text is
    ["hello"], five characters, and a budget of [1000]: the fast path is
    taken and [predict] raises [ValueError] where the claim has it return
    [[["hello"]]]. *)
Theorem predict_fast_path_raises :
  @convert_all path_converter ["hello"] (split_lines "a.txt") = Ok ["hello"] ∧
  sum_Z (len <$> ["hello"]) < 1000 ∧
  @predict first_char_embedder path_converter "q" ["hello"] "a.txt" 1000
    = Err ValueError.
Proof. split_and!; reflexivity. Qed.

(** ** The order of the queries *)

Lemma keys_dict_set {V} k (v : V) (d : dict V) :
  keys (dict_set k v d) = add_key (keys d) k.
Proof.
  unfold add_key. case_bool_decide.
  - by apply keys_dict_set_present.
  - by apply keys_dict_set_absent.
Qed.

Lemma add_key_elem_of ks k : k ∈ add_key ks k.
Proof.
  unfold add_key. case_bool_decide; [done|].
  apply elem_of_app. right. apply list_elem_of_singleton. done.
Qed.

Lemma add_key_present ks k : k ∈ ks → add_key ks k = ks.
Proof. intros Hin. unfold add_key. by rewrite bool_decide_eq_true_2. Qed.

Lemma add_key_NoDup ks k : NoDup ks → NoDup (add_key ks k).
Proof.
  intros Hks. unfold add_key. case_bool_decide as Hin; [done|].
  apply NoDup_app. split_and!; [done | | apply NoDup_singleton].
  intros x Hx Hx'. apply list_elem_of_singleton in Hx' as ->. done.
Qed.

Lemma distinct_in_order_NoDup l : NoDup (distinct_in_order l).
Proof.
  unfold distinct_in_order. generalize (NoDup_nil_2 (A := string)).
  generalize (@nil string) as ks. induction l as [|k l IH]; intros ks Hks; simpl; [done|].
  by apply IH, add_key_NoDup.
Qed.

Lemma add_keys_present ks l : l ⊆ ks → foldl add_key ks l = ks.
Proof.
  induction l as [|k l IH]; intros Hsub; simpl; [done|].
  rewrite add_key_present by (apply Hsub; left).
  apply IH. intros x Hx. apply Hsub. by right.
Qed.

Lemma add_keys_fresh ks l :
  NoDup l → (∀ k, k ∈ l → k ∉ ks) → foldl add_key ks l = ks ++ l.
Proof.
  revert ks. induction l as [|k l IH]; intros ks Hl Hfresh; simpl.
  - by rewrite app_nil_r.
  - apply NoDup_cons in Hl as [Hk Hl].
    unfold add_key at 2. rewrite bool_decide_eq_false_2 by (apply Hfresh; left).
    rewrite IH; [by rewrite <- app_assoc | done |].
    intros x Hx Hx'. apply elem_of_app in Hx' as [Hx'|Hx'].
    + apply (Hfresh x); [by right | done].
    + apply list_elem_of_singleton in Hx' as ->. done.
Qed.

Lemma embed_fold_keys (idxs : list nat) :
  ∀ (queries : list string) (scores : list (list Q)) (d : dict (list (nat * Q))),
    (length queries <= length scores)%nat →
    keys (foldl (λ results '(query, query_scores),
                   dict_set query (zip idxs query_scores) results)
                d (zip queries scores))
    = foldl add_key (keys d) queries.
Proof.
  induction queries as [|q queries IH]; intros [|row scores] d Hlen; simpl in *;
    try done; try lia.
  rewrite IH by lia. by rewrite keys_dict_set.
Qed.

(** The keys of the dictionary [embed] returns are the distinct queries,
    in the order in which they were supplied. *)
Lemma embed_keys `{Embedder} (queries chunks : list string) :
  keys (embed queries chunks) = distinct_in_order queries.
Proof.
  unfold embed. rewrite embed_fold_keys; [done|].
  unfold matmul_T. by rewrite length_fmap, encode_query_length.
Qed.

Lemma dict_mem_keys {V} k (d : dict V) : dict_mem k d = bool_decide (k ∈ keys d).
Proof.
  unfold dict_mem. destruct (dict_get k d) as [v|] eqn:Hget.
  - symmetry. apply bool_decide_eq_true_2.
    destruct (decide (k ∈ keys d)) as [|Hn]; [done|].
    apply dict_get_keys in Hn. congruence.
  - symmetry. apply bool_decide_eq_false_2. by apply dict_get_keys.
Qed.

Lemma add_document_keys doc_idx (embedded_doc : dict (list (nat * Q))) :
  ∀ query_embeddings : dict (list candidate),
    keys (add_document query_embeddings (doc_idx, embedded_doc))
    = foldl add_key (keys query_embeddings) (keys embedded_doc).
Proof.
  unfold add_document.
  induction embedded_doc as [|[query ranking] todo IH]; intros qe; [done|].
  simpl foldl. rewrite IH. f_equal.
  rewrite keys_dict_set, dict_mem_keys.
  case_bool_decide as Hin.
  - done.
  - rewrite keys_dict_set. apply add_key_present, add_key_elem_of.
Qed.

Lemma merge_queues_keys `{Embedder} queries (docs : list (list string)) :
  ∀ start (query_embeddings : dict (list candidate)),
    keys query_embeddings = distinct_in_order queries →
    keys (foldl add_document query_embeddings
            (enumerate_from start (embed queries <$> docs)))
    = distinct_in_order queries.
Proof.
  induction docs as [|chunks docs IH]; intros start qe Hqe; [done|].
  rewrite fmap_cons. cbn [enumerate_from foldl].
  apply IH. rewrite add_document_keys, embed_keys, Hqe.
  by apply add_keys_present.
Qed.

Lemma sort_queues_keys query_embeddings :
  keys (sort_queues query_embeddings) = keys query_embeddings.
Proof.
  unfold keys, sort_queues. rewrite <- list_fmap_compose.
  apply list_fmap_ext. by intros ? [? ?].
Qed.

(** With a document at hand, the queues are in the order in which the
    queries were supplied. *)
Lemma build_queues_keys `{Embedder} queries chunked_docs :
  chunked_docs ≠ [] →
  keys (build_queues queries chunked_docs) = distinct_in_order queries.
Proof.
  destruct chunked_docs as [|chunks docs]; [done|]. intros _.
  unfold build_queues, merge_queues, enumerate.
  rewrite sort_queues_keys, fmap_cons. cbn [enumerate_from foldl].
  apply merge_queues_keys.
  rewrite add_document_keys, embed_keys.
  change (keys []) with (@nil string).
  rewrite add_keys_fresh; [done | apply distinct_in_order_NoDup |].
  intros k _. apply not_elem_of_nil.
Qed.

Lemma build_queues_NoDup_keys `{Embedder} queries chunked_docs :
  NoDup (keys (build_queues queries chunked_docs)).
Proof.
  destruct chunked_docs as [|chunks docs] eqn:E; [constructor|].
  rewrite build_queues_keys by done. apply distinct_in_order_NoDup.
Qed.

(** ** What the passes visit *)

Lemma popped_for_app query visits1 visits2 :
  popped_for query (visits1 ++ visits2)
  = popped_for query visits1 ++ popped_for query visits2.
Proof. unfold popped_for. by rewrite filter_app, fmap_app. Qed.

Lemma popped_for_cons query visit visits :
  popped_for query (visit :: visits)
  = if decide (visit.1 = query) then visit.2 :: popped_for query visits
    else popped_for query visits.
Proof.
  unfold popped_for. destruct (decide (visit.1 = query)) as [Heq|Hne].
  - by rewrite filter_cons_True.
  - by rewrite filter_cons_False.
Qed.

Lemma keys_pop_all items : keys (pop_all items) = keys items.
Proof.
  unfold keys, pop_all. rewrite <- list_fmap_compose.
  apply list_fmap_ext. by intros ? [? ?].
Qed.

Lemma dict_get_pop_all query items :
  dict_get query (pop_all items) = tail <$> dict_get query items.
Proof.
  induction items as [|[k doc_scores] items IH]; [done|].
  change (pop_all ((k, doc_scores) :: items))
    with ((k, tail doc_scores) :: pop_all items).
  simpl. destruct (String.eqb query k); [done | exact IH].
Qed.

Lemma heads_popped_absent query items :
  query ∉ keys items → popped_for query (heads items) = [].
Proof.
  unfold keys. induction items as [|[k [|top doc_scores]] items IH]; simpl;
    intros Hn; [done|..]; apply not_elem_of_cons in Hn as [Hne Hn]; [by apply IH|].
  rewrite popped_for_cons. simpl. rewrite decide_False by done. by apply IH.
Qed.

(** One pass visits, for a query, the head of its queue and nothing else. *)
Lemma heads_popped query items doc_scores :
  NoDup (keys items) → dict_get query items = Some doc_scores →
  popped_for query (heads items) = take 1 doc_scores.
Proof.
  unfold keys. induction items as [|[k v] items IH]; [done|].
  rewrite fmap_cons. simpl fst. intros Hnd. apply NoDup_cons in Hnd as [Hfresh Hnd].
  simpl dict_get. destruct (String.eqb_spec query k) as [->|Hne].
  - intros [= ->]. destruct doc_scores as [|top doc_scores]; simpl.
    + by apply heads_popped_absent.
    + rewrite popped_for_cons. simpl. rewrite decide_True by done.
      f_equal. rewrite heads_popped_absent by done. by rewrite take_0.
  - intros Hget. destruct v as [|top v]; simpl; [by apply IH|].
    rewrite popped_for_cons. simpl. rewrite decide_False by done. by apply IH.
Qed.

Lemma schedule_popped_absent query rounds :
  ∀ items, query ∉ keys items → popped_for query (schedule rounds items) = [].
Proof.
  induction rounds as [|rounds IH]; intros items Hn; simpl; [done|].
  rewrite popped_for_app, heads_popped_absent by done.
  apply IH. by rewrite keys_pop_all.
Qed.

(** [rounds] passes visit, for a query, the first [rounds] candidates of
    its queue, in their order, once each. *)
Lemma schedule_popped query rounds :
  ∀ items doc_scores,
    NoDup (keys items) → dict_get query items = Some doc_scores →
    popped_for query (schedule rounds items) = take rounds doc_scores.
Proof.
  induction rounds as [|rounds IH]; intros items doc_scores Hnd Hget; simpl.
  - by rewrite take_0.
  - rewrite popped_for_app, (heads_popped _ _ _ Hnd Hget).
    rewrite (IH (pop_all items) (tail doc_scores)).
    + destruct doc_scores; simpl; [by rewrite take_nil | done].
    + by rewrite keys_pop_all.
    + by rewrite dict_get_pop_all, Hget.
Qed.

Lemma popped_for_elem_of query top visits :
  (query, top) ∈ visits → top ∈ popped_for query visits.
Proof.
  intros Hin. unfold popped_for. apply list_elem_of_fmap.
  exists (query, top). split; [done|]. by apply list_elem_of_filter.
Qed.

(** Visits that do not repeat for any one query do not repeat. *)
Lemma NoDup_by_query (visits : list (string * candidate)) :
  (∀ query, NoDup (popped_for query visits)) → NoDup visits.
Proof.
  induction visits as [|[q top] visits IH]; intros Hall; [constructor|].
  constructor.
  - intros Hin. specialize (Hall q). rewrite popped_for_cons in Hall. simpl in Hall.
    rewrite decide_True in Hall by done. apply NoDup_cons in Hall as [Hn _].
    by apply Hn, popped_for_elem_of.
  - apply IH. intros query. specialize (Hall query).
    rewrite popped_for_cons in Hall. destruct (decide _); [|done].
    by apply NoDup_cons in Hall as [_ ?].
Qed.

Lemma ranked_before_irrefl a : ¬ ranked_before a a.
Proof.
  intros [Hlt|[_ Hpos]]; [by apply Qlt_irrefl in Hlt|].
  unfold position_before in Hpos. lia.
Qed.

Lemma StronglySorted_NoDup_irrefl {A} (R : A → A → Prop) (l : list A) :
  (∀ x, ¬ R x x) → StronglySorted R l → NoDup l.
Proof.
  intros Hirr. induction 1 as [|x l _ IH Hx]; constructor; [|done].
  intros Hin. rewrite Forall_forall in Hx. by apply (Hirr x), Hx.
Qed.

(** The passes over the queues [predict] builds visit no pair of a query
    and a candidate twice. *)
Lemma schedule_NoDup `{Embedder} queries chunked_docs rounds :
  NoDup (schedule rounds (build_queues queries chunked_docs)).
Proof.
  apply NoDup_by_query. intros query.
  pose proof (build_queues_NoDup_keys queries chunked_docs) as Hnd.
  destruct (dict_get query (build_queues queries chunked_docs))
    as [doc_scores|] eqn:Hget.
  - rewrite (schedule_popped _ _ _ _ Hnd Hget).
    apply dict_get_elem_of in Hget.
    pose proof (build_queues_spec queries chunked_docs) as Hall.
    rewrite Forall_forall in Hall. destruct (Hall _ Hget) as [Hsorted _].
    simpl in Hsorted.
    eapply sublist_NoDup; [|apply sublist_take].
    eapply StronglySorted_NoDup_irrefl; [apply ranked_before_irrefl | done].
  - rewrite schedule_popped_absent; [constructor|]. by apply dict_get_keys.
Qed.

(** A pass visits the queries in the order of the dictionary. *)
Lemma heads_order items : (heads items).*1 `sublist_of` keys items.
Proof.
  unfold keys. induction items as [|[query [|top doc_scores]] items IH]; simpl.
  - constructor.
  - by apply sublist_cons.
  - by apply sublist_skip.
Qed.

(** C3 -- Round-robin, one-shot consumption.  The queues stand in the
    order in which the queries were supplied.  One pass of the loop visits
    the head of every queue that has one, in that order, and leaves every
    queue without its head, whatever became of the candidate.  The loop
    makes a number of full passes: altogether it visits, for every query,
    the first candidates of its queue, in their order and once each, and no
    pair of a query and a candidate twice. *)
Theorem round_robin_one_shot `{Embedder} (queries : list string)
    (chunked_docs : list (list string)) (max_characters : Z) :
  (chunked_docs ≠ [] →
   keys (build_queues queries chunked_docs) = distinct_in_order queries) ∧
  (∀ items st,
     (heads items).*1 `sublist_of` keys items ∧
     round_robin chunked_docs max_characters items st =
     st' ← consider_all chunked_docs max_characters (heads items).*2 st;
     Ok (pop_all items, st')) ∧
  (∀ st, (length chunked_docs <= length (document_embeddings st))%nat →
     ∃ items' st' rounds,
       allocate chunked_docs max_characters (build_queues queries chunked_docs) st
         = Ok (items', st') ∧
       items' = Nat.iter rounds pop_all (build_queues queries chunked_docs) ∧
       consider_all chunked_docs max_characters
         (schedule rounds (build_queues queries chunked_docs)).*2 st = Ok st' ∧
       NoDup (schedule rounds (build_queues queries chunked_docs)) ∧
       ∀ query doc_scores,
         dict_get query (build_queues queries chunked_docs) = Some doc_scores →
         popped_for query (schedule rounds (build_queues queries chunked_docs))
         = take rounds doc_scores).
Proof.
  split_and!.
  - apply build_queues_keys.
  - intros items st. split; [apply heads_order | apply round_robin_heads].
  - intros st Hlen.
    destruct (allocate_loop_total chunked_docs max_characters
                (queued (build_queues queries chunked_docs))
                (build_queues queries chunked_docs) st)
      as (items' & st' & Hrun); [apply build_queues_in_range | done | lia |].
    destruct (allocate_loop_schedule _ _ _ _ _ _ _ Hrun)
      as (rounds & Hitems & Hvisits & _).
    exists items', st', rounds. split_and!; try done.
    + apply schedule_NoDup.
    + intros query doc_scores Hget.
      apply schedule_popped; [apply build_queues_NoDup_keys | done].
Qed.

(** ** Examples *)

(** A text of 1200 characters is cut into chunks of 512, 512 and 176
    characters. *)
Example chunk_to_length_example :
  chunk_to_length example_text 512
  = Ok [str_take 512 example_text;
        str_take 512 (str_drop 512 example_text);
        str_drop 1024 example_text] ∧
  String.length (str_drop 1024 example_text) = 176%nat.
Proof. split; vm_compute; reflexivity. Qed.

(** Two documents, two queries and a budget of 600 characters: the only
    chunk of the second document is taken first, for the first query; the
    second query then pops the same chunk, which is discarded; of the first
    document only the last chunk fits. *)
Example predict_example :
  @predict first_char_embedder path_converter example_queries
    [example_text; "bye"] example_filenames 600
  = Ok [[str_drop 1024 example_text]; ["bye"]].
Proof. vm_compute. reflexivity. Qed.

(** ** Instances of the theorems *)

(** Witness of C2. *)
Lemma budget_respected_witness :
  (∃ fragments,
     @predict first_char_embedder path_converter example_queries
       [example_text; "bye"] example_filenames 600 = Ok fragments ∧
     total_fragment_chars fragments <= 600) ∧
  (∀ chunked_docs top st st',
     consider chunked_docs 600 top st = Ok st' → st' ≠ st → total_chars st' <= 600).
Proof.
  apply (@budget_respected first_char_embedder path_converter example_queries
           [example_text; "bye"] example_filenames 600 [example_text; "bye"]).
  - lia.
  - reflexivity.
  - vm_compute. discriminate.
Defined.

(** Witness of C8. *)
Lemma no_duplicate_selection_witness :
  ∃ chunked_docs st fragments,
    @select_chunks first_char_embedder (split_lines example_queries)
      [example_text; "bye"] [example_text; "bye"] 600 = Ok (chunked_docs, st) ∧
    Forall NoDup (document_embeddings st) ∧
    chunk_texts chunked_docs (document_embeddings st) = Ok fragments ∧
    @predict first_char_embedder path_converter example_queries
      [example_text; "bye"] example_filenames 600 = Ok fragments.
Proof.
  apply (@no_duplicate_selection first_char_embedder path_converter
           example_queries [example_text; "bye"] example_filenames 600
           [example_text; "bye"]).
  - reflexivity.
  - vm_compute. discriminate.
Defined.

(** Witness of C10. *)
Lemma popped_indices_in_range_witness :
  ∃ chunked_docs st fragments,
    @select_chunks first_char_embedder (split_lines example_queries)
      [example_text; "bye"] [example_text; "bye"] 600 = Ok (chunked_docs, st) ∧
    length (document_embeddings st) = length [example_text; "bye"%string] ∧
    (∀ rounds query doc_idx chunk_idx score,
       (query, (doc_idx, chunk_idx, score))
         ∈ schedule rounds
             (@build_queues first_char_embedder (split_lines example_queries)
                chunked_docs) →
       (doc_idx < length [example_text; "bye"])%nat ∧
       ∃ chunks chunk,
         chunked_docs !! doc_idx = Some chunks ∧ chunks !! chunk_idx = Some chunk) ∧
    chunk_texts chunked_docs (document_embeddings st) = Ok fragments ∧
    @predict first_char_embedder path_converter example_queries
      [example_text; "bye"] example_filenames 600 = Ok fragments.
Proof.
  apply (@popped_indices_in_range first_char_embedder path_converter
           example_queries [example_text; "bye"] example_filenames 600
           [example_text; "bye"]).
  - reflexivity.
  - vm_compute. discriminate.
Defined.

(** Witness of C5: three chunks that score the same for the query ["b"]
    stand in the order of (document index, chunk index). *)
Lemma merged_queue_order_witness :
  (score_of (0%nat, 1%nat, 11760%Q) < score_of (0%nat, 0%nat, 11760%Q))%Q ∨
  (score_of (0%nat, 0%nat, 11760%Q) == score_of (0%nat, 1%nat, 11760%Q))%Q ∧
  ((0%nat, 0%nat, 11760%Q).1.1 < (0%nat, 1%nat, 11760%Q).1.1 ∨
   (0%nat, 0%nat, 11760%Q).1.1 = (0%nat, 1%nat, 11760%Q).1.1 ∧
   (0%nat, 0%nat, 11760%Q).1.2 < (0%nat, 1%nat, 11760%Q).1.2)%nat.
Proof.
  apply (@merged_queue_order first_char_embedder ["b"; "a"]
           [["xa"; "xb"]; ["xc"]] "b"
           [(0%nat, 0%nat, 11760%Q); (0%nat, 1%nat, 11760%Q); (1%nat, 0%nat, 11760%Q)]
           0 1).
  - reflexivity.
  - lia.
  - reflexivity.
  - reflexivity.
Defined.

(** Witness of C9, as amended. *)
Lemma non_positive_budget_not_rejected_witness :
  (∀ converted_docs,
     @convert_all path_converter [example_text; "bye"] (split_lines example_filenames)
       = Ok converted_docs →
     @predict first_char_embedder path_converter example_queries
       [example_text; "bye"] example_filenames (-5)
       = Ok (replicate (length [example_text; "bye"]) [])) ∧
  (∀ e,
     @convert_all path_converter [example_text; "bye"] (split_lines example_filenames)
       = Err e →
     @predict first_char_embedder path_converter example_queries
       [example_text; "bye"] example_filenames (-5) = Err e).
Proof.
  apply (@non_positive_budget_not_rejected first_char_embedder path_converter
           example_queries [example_text; "bye"] example_filenames (-5)).
  lia.
Defined.

(** C9 fails as stated: with a budget of zero [predict] returns a result,
    and it has run the conversion, whose failure is what it raises. *)
Lemma non_positive_budget_counterexample :
  @predict first_char_embedder path_converter "q" ["hello"] "a.txt" 0 = Ok [[]] ∧
  @predict first_char_embedder failing_converter "q" ["hello"] "a.txt" 0
    = Err ConversionError.
Proof. split; reflexivity. Qed.

(** Witness of C3, with the selection [predict] starts from. *)
Lemma round_robin_one_shot_witness :
  keys (@build_queues first_char_embedder ["b"; "a"; "b"] [["xa"; "b"]; ["c"]])
    = ["b"; "a"] ∧
  ∃ items' st' rounds,
    allocate [["xa"; "b"]; ["c"]] 3
      (@build_queues first_char_embedder ["b"; "a"; "b"] [["xa"; "b"]; ["c"]])
      (initial_selection ["d0"; "d1"]) = Ok (items', st') ∧
    popped_for "a"
      (schedule rounds
         (@build_queues first_char_embedder ["b"; "a"; "b"] [["xa"; "b"]; ["c"]]))
    = take rounds [(0%nat, 0%nat, 11640%Q); (1%nat, 0%nat, 9603%Q); (0%nat, 1%nat, 9506%Q)].
Proof.
  destruct (@round_robin_one_shot first_char_embedder ["b"; "a"; "b"]
              [["xa"; "b"]; ["c"]] 3) as (Hkeys & _ & Hloop).
  split.
  - apply Hkeys. discriminate.
  - destruct (Hloop (initial_selection ["d0"; "d1"])) as
      (items' & st' & rounds & Hrun & _ & _ & _ & Hpopped); [simpl; lia|].
    exists items', st', rounds. split; [exact Hrun|].
    apply Hpopped. reflexivity.
Defined.

(** * Further properties of the code *)

(** ** More on the chunker *)

(** X1 -- With a [max_length] that is not positive [chunk_to_length] never
    returns, whatever fuel its loop is given; the one exception is the
    empty text with [max_length = 0], for which it returns one empty
    chunk. *)
Theorem chunk_to_length_non_positive text max_length :
  max_length <= 0 →
  (text = EmptyString ∧ max_length = 0 ∧
   chunk_to_length text max_length = Ok [EmptyString]) ∨
  (∀ fuel chunks, chunk_loop fuel text max_length chunks = Err NonTermination).
Proof.
  intros Hmax.
  destruct (decide (max_length = 0 ∧ text = EmptyString)) as [[-> ->]|Hne].
  - left. done.
  - right. intros fuel chunks. apply chunk_loop_diverges.
    destruct (decide (max_length < 0)) as [|Hzero]; [by left|].
    right. split; [lia|]. intros ->. apply Hne. split; [lia|done].
Qed.

(** X2 -- For a positive [max_length] the list of chunks is never empty,
    no chunk has more than [max_length] characters, and no chunk of a text
    that is not empty is empty. *)
Theorem chunk_to_length_sizes text max_length :
  0 < max_length →
  ∃ chunks,
    chunk_to_length text max_length = Ok chunks ∧
    chunks ≠ [] ∧
    Forall (λ chunk, len chunk <= max_length) chunks ∧
    (text ≠ EmptyString → Forall (λ chunk, 0 < len chunk) chunks).
Proof.
  intros Hm.
  destruct (chunk_loop_spec max_length (S (String.length text)) Hm text [])
    as (body & last & Hrun & _ & Hbody & Hlast & Hpos & _); [lia|].
  exists (body ++ [last]). split_and!.
  - exact Hrun.
  - by destruct body.
  - apply Forall_app. split; [|by constructor].
    eapply Forall_impl; [exact Hbody|]. simpl. intros chunk ->. lia.
  - intros Hne. apply Forall_app. split; [|constructor; auto].
    eapply Forall_impl; [exact Hbody|]. simpl. intros chunk ->. lia.
Qed.

Lemma chunk_to_length_non_positive_witness :
  ("abc"%string = EmptyString ∧ (-1) = 0 ∧
   chunk_to_length "abc" (-1) = Ok [EmptyString]) ∨
  (∀ fuel chunks, chunk_loop fuel "abc" (-1) chunks = Err NonTermination).
Proof. apply (chunk_to_length_non_positive "abc" (-1)). lia. Defined.

Lemma chunk_to_length_sizes_witness :
  ∃ chunks,
    chunk_to_length "hello world" 4 = Ok chunks ∧
    chunks ≠ [] ∧
    Forall (λ chunk, len chunk <= 4) chunks ∧
    ("hello world"%string ≠ EmptyString → Forall (λ chunk, 0 < len chunk) chunks).
Proof. apply (chunk_to_length_sizes "hello world" 4). lia. Defined.

(** ** More on the scorer *)

Lemma dict_get_set {V} k k' (v : V) (d : dict V) :
  dict_get k (dict_set k' v d) = if String.eqb k k' then Some v else dict_get k d.
Proof.
  induction d as [|[k0 v0] d IH]; simpl.
  - by destruct (String.eqb k k').
  - destruct (String.eqb_spec k' k0) as [->|Hne]; simpl.
    + by destruct (String.eqb k k0).
    + destruct (String.eqb_spec k k0) as [->|Hne'].
      * destruct (String.eqb_spec k0 k'); [congruence|done].
      * exact IH.
Qed.

Lemma elem_of_add_keys ks l k : k ∈ foldl add_key ks l ↔ k ∈ ks ∨ k ∈ l.
Proof.
  revert ks. induction l as [|x l IH]; intros ks; simpl.
  - rewrite elem_of_nil. tauto.
  - rewrite IH, elem_of_cons. unfold add_key. case_bool_decide as Hx.
    + split; [tauto|]. intros [?|[->|?]]; auto.
    + rewrite elem_of_app, list_elem_of_singleton. tauto.
Qed.

Lemma elem_of_distinct_in_order l k : k ∈ distinct_in_order l ↔ k ∈ l.
Proof.
  unfold distinct_in_order. rewrite elem_of_add_keys, elem_of_nil. tauto.
Qed.

Lemma embed_fold_get_absent (idxs : list nat) q (rows : list (string * list Q)) :
  ∀ d : dict (list (nat * Q)),
    q ∉ rows.*1 →
    dict_get q (foldl (λ results '(query, query_scores),
                         dict_set query (zip idxs query_scores) results) d rows)
    = dict_get q d.
Proof.
  induction rows as [|[k row] rows IH]; intros d Hq; [done|].
  rewrite fmap_cons in Hq. apply not_elem_of_cons in Hq as [Hne Hq].
  simpl. rewrite IH by done. rewrite dict_get_set.
  destruct (String.eqb_spec q k); [done|done].
Qed.

(** The last assignment to a key is what the dictionary holds. *)
Lemma embed_fold_get_last (idxs : list nat) q row
    (rows1 rows2 : list (string * list Q)) (d : dict (list (nat * Q))) :
  q ∉ rows2.*1 →
  dict_get q (foldl (λ results '(query, query_scores),
                       dict_set query (zip idxs query_scores) results) d
                (rows1 ++ (q, row) :: rows2))
  = Some (zip idxs row).
Proof.
  intros Hq. rewrite foldl_app. simpl.
  rewrite embed_fold_get_absent by done.
  rewrite dict_get_set. by rewrite String.eqb_refl.
Qed.

Lemma last_occurrence_split {V} q (rows : list (string * V)) :
  q ∈ rows.*1 →
  ∃ rows1 v rows2, rows = rows1 ++ (q, v) :: rows2 ∧ q ∉ rows2.*1.
Proof.
  induction rows as [|[k v] rows IH]; intros Hq.
  - by apply elem_of_nil in Hq.
  - destruct (decide (q ∈ rows.*1)) as [Hin|Hn].
    + destruct (IH Hin) as (rows1 & v' & rows2 & -> & Hlast).
      by exists ((k, v) :: rows1), v', rows2.
    + rewrite fmap_cons in Hq. apply elem_of_cons in Hq as [->|?]; [|done].
      by exists [], v, rows.
Qed.

(** X3 -- [embed] returns an entry for exactly the queries it is given,
    and for a query given more than once the entry holds the scores of its
    last occurrence. *)
Theorem embed_last_occurrence `{Embedder} (queries chunks : list string)
    (query : string) :
  (dict_get query (embed queries chunks) = None ↔ query ∉ queries) ∧
  (∀ ranking,
     dict_get query (embed queries chunks) = Some ranking →
     ∃ i u, queries !! i = Some query ∧
            (∀ j, (i < j)%nat → queries !! j ≠ Some query) ∧
            encode_query queries !! i = Some u ∧
            ranking = zip (seq 0 (length chunks)) (dot u <$> encode_document chunks)).
Proof.
  assert (Hnone : dict_get query (embed queries chunks) = None ↔ query ∉ queries).
  { by rewrite dict_get_keys, embed_keys, elem_of_distinct_in_order. }
  split; [exact Hnone|]. intros ranking Hget.
  assert (Hin : query ∈ queries).
  { destruct (decide (query ∈ queries)) as [|Hn]; [done|].
    apply Hnone in Hn. congruence. }
  unfold embed in Hget.
  set (scores := matmul_T (encode_query queries) (encode_document chunks)) in *.
  assert (Hfst : (zip queries scores).*1 = queries).
  { apply fst_zip. subst scores. unfold matmul_T.
    by rewrite length_fmap, encode_query_length. }
  rewrite <- Hfst in Hin.
  destruct (last_occurrence_split _ _ Hin) as (rows1 & row & rows2 & Hsplit & Hlast).
  rewrite Hsplit, embed_fold_get_last in Hget by done. injection Hget as <-.
  assert (Hi : zip queries scores !! length rows1 = Some (query, row)).
  { rewrite Hsplit. by rewrite list_lookup_middle. }
  apply lookup_zip_Some in Hi as [Hq Hrow].
  subst scores. unfold matmul_T in Hrow. rewrite list_lookup_fmap in Hrow.
  destruct (encode_query queries !! length rows1) as [u|] eqn:Hu; [|done].
  injection Hrow as <-.
  exists (length rows1), u. split_and!; try done.
  intros j Hj Hqj. apply Hlast.
  rewrite <- Hfst, Hsplit, fmap_app, fmap_cons in Hqj.
  rewrite lookup_app_r in Hqj by (rewrite length_fmap; lia).
  rewrite length_fmap in Hqj.
  destruct (j - length rows1)%nat as [|n] eqn:Hn; [lia|].
  simpl in Hqj. by apply list_elem_of_lookup_2 in Hqj.
Qed.

(** ** More on the chunked path *)

(** The steps of a run of [predict] on the chunked path. *)
Lemma predict_chunked_run `{Embedder, Converter} queries documents
    document_filenames max_characters converted_docs :
  convert_all documents (split_lines document_filenames) = Ok converted_docs →
  max_characters <= sum_Z (len <$> converted_docs) →
  ∃ chunked_docs items' st fragments,
    mapM (λ doc, chunk_to_length doc 512) converted_docs = Ok chunked_docs ∧
    allocate chunked_docs max_characters
      (build_queues (split_lines queries) chunked_docs)
      (initial_selection documents) = Ok (items', st) ∧
    chunk_texts chunked_docs (document_embeddings st) = Ok fragments ∧
    total_fragment_chars fragments = total_chars st ∧
    predict queries documents document_filenames max_characters = Ok fragments.
Proof.
  intros Hconv Hlong.
  destruct (predict_chunked_total queries documents document_filenames
              max_characters converted_docs Hconv Hlong)
    as (chunked & st & frags & Hsel & _ & Htexts & Hsum & Hrun).
  unfold select_chunks in Hsel.
  destruct (mapM _ converted_docs) as [chunked'|] eqn:Hchunked; simpl in Hsel; [|done].
  destruct (allocate _ _ _ _) as [[items' st']|] eqn:Halloc; simpl in Hsel; [|done].
  injection Hsel as <- <-. by exists chunked', items', st', frags.
Qed.

Lemma length_enumerate_from {A} start (l : list A) :
  length (enumerate_from start l) = length l.
Proof. revert start. induction l as [|x l IH]; intros start; simpl; [done|]. by rewrite IH. Qed.

(** The fragments of a document are the chunks at the indices selected
    for it. *)
Lemma chunk_texts_lookup chunked_docs selected fragments :
  chunk_texts chunked_docs selected = Ok fragments →
  length fragments = length selected ∧
  ∀ d chunk_idxs, selected !! d = Some chunk_idxs →
    ∃ texts, fragments !! d = Some texts ∧
             Forall2 (λ c text, chunk_at chunked_docs d c = Ok text) chunk_idxs texts.
Proof.
  unfold chunk_texts, enumerate. intros Htexts. apply mapM_Ok in Htexts. split.
  - apply Forall2_length in Htexts. by rewrite length_enumerate_from in Htexts.
  - intros d cs Hd.
    assert (Henum : enumerate_from 0 selected !! d = Some (d, cs)).
    { by rewrite enumerate_from_lookup, Hd. }
    destruct (Forall2_lookup_l _ _ _ _ _ Htexts Henum) as (texts & Hfs & Hmap).
    exists texts. split; [done | by apply mapM_Ok].
Qed.

(** The loop selects for documents that were converted only. *)
Lemma consider_unconverted chunked_docs max_characters n top st st' :
  (length (document_embeddings st) = n ∧
   ∀ d, (length chunked_docs <= d < n)%nat → document_embeddings st !! d = Some []) →
  consider chunked_docs max_characters top st = Ok st' →
  length (document_embeddings st') = n ∧
  ∀ d, (length chunked_docs <= d < n)%nat → document_embeddings st' !! d = Some [].
Proof.
  destruct top as [[d c] s]. intros [Hlen Hempty] Hc.
  apply consider_cases in Hc as [->|(chunk & selected & Hchunk & _ & _ & _ & ->)];
    [done|]. simpl. split; [by rewrite length_insert|].
  intros d' Hd'. apply chunk_at_Ok in Hchunk as (chunks & Hd & _).
  apply lookup_lt_Some in Hd.
  rewrite list_lookup_insert_ne by lia. by apply Hempty.
Qed.

(** X4 -- On the chunked path [predict] returns one list of fragments for
    every element of [documents]; the documents that have no file name,
    which are never converted, get the empty list. *)
Theorem predict_result_shape `{Embedder, Converter} queries documents
    document_filenames max_characters converted_docs :
  convert_all documents (split_lines document_filenames) = Ok converted_docs →
  max_characters <= sum_Z (len <$> converted_docs) →
  ∃ fragments,
    predict queries documents document_filenames max_characters = Ok fragments ∧
    length fragments = length documents ∧
    ∀ d, (length converted_docs <= d < length documents)%nat →
         fragments !! d = Some [].
Proof.
  intros Hconv Hlong.
  destruct (predict_chunked_run queries documents document_filenames
              max_characters converted_docs Hconv Hlong)
    as (chunked & items' & st & frags & Hchunked & Halloc & Htexts & _ & Hrun).
  apply mapM_Ok, Forall2_length in Hchunked.
  assert (Hinv : length (document_embeddings st) = length documents ∧
            ∀ d, (length chunked <= d < length documents)%nat →
                 document_embeddings st !! d = Some []).
  { refine (allocate_preserves _ _
              (λ s, length (document_embeddings s) = length documents ∧
                    ∀ d, (length chunked <= d < length documents)%nat →
                         document_embeddings s !! d = Some [])
              _ _ _ _ _ _ Halloc).
    - intros top s s'. apply consider_unconverted.
    - simpl. split; [apply length_replicate|].
      intros d Hd. apply lookup_replicate_2. lia. }
  destruct Hinv as [Hlen Hempty].
  destruct (chunk_texts_lookup _ _ _ Htexts) as [Hlen' Hlook].
  exists frags. split_and!; [done | lia |].
  intros d Hd. destruct (Hlook d []) as (texts & Hd' & Hall).
  { apply Hempty. lia. }
  by apply Forall2_nil_inv_l in Hall as ->.
Qed.

(** X5 -- On the chunked path every fragment returned for a document is
    one of the chunks of the text of that document, so it has at most 512
    characters. *)
Theorem fragments_are_chunks `{Embedder, Converter} queries documents
    document_filenames max_characters converted_docs :
  convert_all documents (split_lines document_filenames) = Ok converted_docs →
  max_characters <= sum_Z (len <$> converted_docs) →
  ∃ fragments,
    predict queries documents document_filenames max_characters = Ok fragments ∧
    ∀ d texts text,
      fragments !! d = Some texts → text ∈ texts →
      ∃ doc chunks,
        converted_docs !! d = Some doc ∧
        chunk_to_length doc 512 = Ok chunks ∧
        text ∈ chunks ∧
        len text <= 512.
Proof.
  intros Hconv Hlong.
  destruct (predict_chunked_run queries documents document_filenames
              max_characters converted_docs Hconv Hlong)
    as (chunked & items' & st & frags & Hchunked & _ & Htexts & _ & Hrun).
  exists frags. split; [done|]. intros d texts text Hd Hin.
  destruct (chunk_texts_lookup _ _ _ Htexts) as [Hlen Hlook].
  destruct (lookup_lt_is_Some_2 (document_embeddings st) d) as [cs Hcs].
  { rewrite <- Hlen. by eapply lookup_lt_Some. }
  destruct (Hlook d cs Hcs) as (texts' & Hd' & Hall).
  assert (texts' = texts) as -> by congruence.
  apply list_elem_of_lookup in Hin as [i Hi].
  destruct (Forall2_lookup_r _ _ _ _ _ Hall Hi) as (c & _ & Hchunk).
  apply chunk_at_Ok in Hchunk as (chunks & Hchunks & Htext).
  apply mapM_Ok in Hchunked.
  destruct (Forall2_lookup_r _ _ _ _ _ Hchunked Hchunks) as (doc & Hdoc & Hcut).
  exists doc, chunks. split_and!; try done.
  - by eapply list_elem_of_lookup_2.
  - destruct (chunk_loop_spec 512 (S (String.length doc)) eq_refl doc [])
      as (body & last & Hrun' & _ & Hbody & Hlast & _); [lia|].
    unfold chunk_to_length in Hcut. rewrite Hrun' in Hcut. injection Hcut as <-.
    apply list_elem_of_lookup_2, elem_of_app in Htext as [Hin|Hin].
    + rewrite Forall_forall in Hbody. rewrite (Hbody _ Hin). done.
    + apply list_elem_of_singleton in Hin as ->. exact Hlast.
Qed.

(** ** What the queues hold *)

Lemma add_document_get q doc_idx (embedded_doc : dict (list (nat * Q))) :
  NoDup (keys embedded_doc) →
  ∀ query_embeddings : dict (list candidate),
    dict_get q (add_document query_embeddings (doc_idx, embedded_doc)) =
    match dict_get q embedded_doc with
    | Some ranking =>
        Some (default [] (dict_get q query_embeddings) ++
              ((λ '(chunk_idx, score), (doc_idx, chunk_idx, score)) <$> ranking))
    | None => dict_get q query_embeddings
    end.
Proof.
  unfold add_document, keys.
  induction embedded_doc as [|[k ranking] todo IH]; intros Hnd qe; [done|].
  rewrite fmap_cons in Hnd. apply NoDup_cons in Hnd as [Hfresh Hnd].
  simpl foldl. rewrite IH by done. simpl dict_get.
  set (qe1 := if dict_mem k qe then qe else dict_set k [] qe).
  assert (Hqe1 : ∀ q', default [] (dict_get q' qe1) = default [] (dict_get q' qe)).
  { intros q'. subst qe1. unfold dict_mem.
    destruct (dict_get k qe) as [v|] eqn:Hk; [done|].
    rewrite dict_get_set. destruct (String.eqb_spec q' k) as [->|]; [|done].
    by rewrite Hk. }
  assert (Hqe1' : ∀ q', q' ≠ k → dict_get q' qe1 = dict_get q' qe).
  { intros q' Hne. subst qe1. destruct (dict_mem k qe); [done|].
    rewrite dict_get_set. by destruct (String.eqb_spec q' k). }
  rewrite dict_get_set. destruct (String.eqb_spec q k) as [->|Hne].
  - assert (dict_get k todo = None) as -> by by apply dict_get_keys.
    by rewrite Hqe1.
  - rewrite (Hqe1' q Hne). done.
Qed.

Lemma embed_get_supplied `{Embedder} queries chunks q :
  q ∈ queries →
  ∃ row, length row = length chunks ∧
         dict_get q (embed queries chunks) = Some (zip (seq 0 (length chunks)) row).
Proof.
  intros Hq.
  destruct (dict_get q (embed queries chunks)) as [ranking|] eqn:Hget.
  - apply dict_get_elem_of in Hget.
    pose proof (embed_entries queries chunks) as Hall.
    rewrite Forall_forall in Hall. destruct (Hall _ Hget) as (i & u & _ & _ & ->).
    exists (dot u <$> encode_document chunks).
    by rewrite length_fmap, encode_document_length.
  - apply dict_get_keys in Hget.
    rewrite embed_keys, elem_of_distinct_in_order in Hget. done.
Qed.

Lemma merge_queues_covers `{Embedder} queries q (rest : list (list string)) :
  q ∈ queries →
  ∀ (done_docs : list (list string)) (query_embeddings : dict (list candidate)),
    covers (done_docs ++ rest) (length done_docs)
      (default [] (dict_get q query_embeddings)) →
    covers (done_docs ++ rest) (length (done_docs ++ rest))
      (default [] (dict_get q
         (foldl add_document query_embeddings
            (enumerate_from (length done_docs) (embed queries <$> rest))))).
Proof.
  intros Hq. induction rest as [|chunks rest IH]; intros done_docs qe Hqe.
  { simpl. by rewrite app_nil_r in *. }
  rewrite fmap_cons. cbn [enumerate_from foldl].
  specialize (IH (done_docs ++ [chunks])).
  rewrite <- app_assoc, length_app in IH. simpl in IH.
  rewrite Nat.add_1_r in IH. apply IH. clear IH.
  rewrite add_document_get by apply embed_NoDup_keys.
  destruct (embed_get_supplied queries chunks q Hq) as (row & Hrow & ->). simpl.
  intros d chunks' c Hd Hchunks Hc.
  destruct (decide (d = length done_docs)) as [->|Hne].
  - rewrite lookup_app_r, Nat.sub_diag in Hchunks by lia.
    injection Hchunks as <-.
    destruct (lookup_lt_is_Some_2 row c) as [score Hscore]; [lia|].
    exists score. apply elem_of_app. right.
    apply list_elem_of_fmap. exists (c, score). split; [done|].
    apply list_elem_of_lookup. exists c. apply lookup_zip_Some.
    split; [by apply lookup_seq|done].
  - destruct (Hqe d chunks' c) as [score Hin]; [lia|done..|].
    exists score. apply elem_of_app. by left.
Qed.

Lemma sort_queues_get q query_embeddings :
  dict_get q (sort_queues query_embeddings)
  = sorted_desc <$> dict_get q query_embeddings.
Proof.
  unfold sort_queues. induction query_embeddings as [|[k v] d IH]; [done|].
  simpl. destruct (String.eqb q k); [done | exact IH].
Qed.

(** The queue of a query that was supplied holds a candidate for every
    chunk of every document. *)
Lemma build_queues_covers `{Embedder} queries chunked_docs q :
  q ∈ queries →
  covers chunked_docs (length chunked_docs)
    (default [] (dict_get q (build_queues queries chunked_docs))).
Proof.
  intros Hq. unfold build_queues, merge_queues, enumerate.
  pose proof (merge_queues_covers queries q chunked_docs Hq [] []) as Hcov.
  simpl in Hcov. rewrite sort_queues_get.
  destruct (dict_get q _) as [ds|]; simpl in *.
  - intros d chunks c Hd Hchunks Hc.
    destruct (Hcov ltac:(intros ? ? ? ?; lia) d chunks c Hd Hchunks Hc) as [s Hin].
    exists s. by rewrite sorted_desc_perm.
  - apply Hcov. intros ? ? ? ?. lia.
Qed.

(** ** What is left when the loop exits *)

Lemma split_lines_nonempty s : ∃ line, line ∈ split_lines s.
Proof.
  destruct s as [|c s]; simpl.
  - exists EmptyString. left.
  - destruct (Ascii.eqb c newline).
    + exists EmptyString. left.
    + destruct (split_lines s) as [|line lines]; eexists; left.
Qed.

Lemma queued_zero_get items q doc_scores :
  queued items = 0%nat → dict_get q items = Some doc_scores → doc_scores = [].
Proof.
  induction items as [|[k v] items IH]; [done|].
  rewrite queued_cons. simpl. intros Hzero.
  destruct (String.eqb q k).
  - intros [= <-]. apply nil_length_inv. lia.
  - apply IH. lia.
Qed.

Lemma dict_get_iter_pop_all q rounds items :
  dict_get q (Nat.iter rounds pop_all items) = drop rounds <$> dict_get q items.
Proof.
  induction rounds as [|rounds IH]; simpl.
  - by destruct (dict_get q items).
  - rewrite dict_get_pop_all, IH. destruct (dict_get q items) as [ds|]; [|done].
    simpl. f_equal. clear. revert ds.
    induction rounds as [|rounds IH]; intros [|x ds]; simpl; done.
Qed.

Lemma popped_for_subseteq q visits top :
  top ∈ popped_for q visits → top ∈ visits.*2.
Proof.
  unfold popped_for. intros Hin.
  apply list_elem_of_fmap in Hin as (visit & -> & Hin).
  apply list_elem_of_filter in Hin as [_ Hin].
  apply list_elem_of_fmap. by exists visit.
Qed.

Section Settled.

Context (chunked_docs : list (list string)) (max_characters : Z).

(** A candidate is settled as soon as it has been considered. *)
Lemma consider_settles top st st' :
  consider chunked_docs max_characters top st = Ok st' →
  settled chunked_docs max_characters top st'.
Proof.
  destruct top as [[d c] s]. unfold consider, settled. simpl.
  destruct (chunk_at chunked_docs d c) as [chunk|] eqn:Hc; simpl; [|done].
  destruct (Z.gtb_spec (total_chars st + len chunk) max_characters) as [Hgt|Hle].
  { intros [= <-]. right. exists chunk. split; [done|lia]. }
  destruct (index (document_embeddings st) d) as [selected|] eqn:Hs; simpl; [|done].
  apply index_Ok in Hs. case_bool_decide as Hin.
  { intros [= <-]. left. by exists selected. }
  intros [= <-]. left. simpl. exists (selected ++ [c]). split.
  - apply list_lookup_insert_eq. by eapply lookup_lt_Some.
  - apply elem_of_app. right. by apply list_elem_of_singleton.
Qed.

(** And it stays settled: the lists of the selection and the running
    total only grow. *)
Lemma consider_settled_mono top x st st' :
  settled chunked_docs max_characters top st →
  consider chunked_docs max_characters x st = Ok st' →
  settled chunked_docs max_characters top st'.
Proof.
  destruct x as [[d c] s]. intros Hsettled Hc.
  apply consider_cases in Hc
    as [->|(chunk & selected & _ & Hsel & _ & _ & ->)]; [done|].
  destruct Hsettled as [(sel & Hd & Hin)|(chunk' & Hchunk & Hlong)].
  - left. simpl. destruct (decide (top.1.1 = d)) as [Heq|Hne].
    + rewrite Heq in *. exists (selected ++ [c]). split.
      * apply list_lookup_insert_eq. by eapply lookup_lt_Some.
      * apply elem_of_app. left. congruence.
    + exists sel. by rewrite list_lookup_insert_ne.
  - right. exists chunk'. split; [done|]. simpl. unfold len in *. lia.
Qed.

Lemma consider_all_settles tops :
  ∀ st st',
    consider_all chunked_docs max_characters tops st = Ok st' →
    Forall (λ top, settled chunked_docs max_characters top st') tops.
Proof.
  induction tops as [|x tops IH]; intros st st'; simpl; [constructor|].
  destruct (consider _ _ x st) as [st1|e] eqn:Hx; simpl; [|done].
  intros Hrest. constructor; [|by eapply IH].
  eapply (consider_all_preserves _ _
            (λ s, settled chunked_docs max_characters x s));
    [|by eapply consider_settles|exact Hrest].
  intros top s s'. apply consider_settled_mono.
Qed.

End Settled.

(** X6 -- Nothing that fits is left out.  When [predict] returns fewer
    characters than the budget on the chunked path, every chunk of every
    converted document is among the chunks selected or is too long for
    what is left of the budget: a candidate that was discarded for want of
    room would not have fitted in any later pass. *)
Theorem unused_budget_fits_nothing `{Embedder, Converter} queries documents
    document_filenames max_characters converted_docs :
  convert_all documents (split_lines document_filenames) = Ok converted_docs →
  max_characters <= sum_Z (len <$> converted_docs) →
  ∃ chunked_docs st fragments,
    select_chunks (split_lines queries) documents converted_docs max_characters
      = Ok (chunked_docs, st) ∧
    predict queries documents document_filenames max_characters = Ok fragments ∧
    total_fragment_chars fragments = total_chars st ∧
    (total_chars st < max_characters →
     ∀ d chunks c chunk,
       chunked_docs !! d = Some chunks → chunks !! c = Some chunk →
       (∃ selected, document_embeddings st !! d = Some selected ∧ c ∈ selected) ∨
       max_characters < total_chars st + len chunk).
Proof.
  intros Hconv Hlong.
  destruct (predict_chunked_run queries documents document_filenames
              max_characters converted_docs Hconv Hlong)
    as (chunked & items' & st & frags & Hchunked & Halloc & Htexts & Hsum & Hrun).
  exists chunked, st, frags. split_and!; try done.
  { unfold select_chunks. rewrite Hchunked. simpl. by rewrite Halloc. }
  intros Hleft d chunks c chunk Hd Hc.
  set (items := build_queues (split_lines queries) chunked) in *.
  unfold allocate in Halloc.
  apply allocate_loop_schedule in Halloc as (rounds & -> & Hall & Hexit).
  assert (Hempty : queued (Nat.iter rounds pop_all items) = 0%nat).
  { apply andb_false_iff in Hexit as [Hexit|Hexit].
    - apply Z.ltb_ge in Hexit. lia.
    - apply Nat.ltb_ge in Hexit. lia. }
  destruct (split_lines_nonempty queries) as [q Hq].
  destruct (build_queues_covers (split_lines queries) chunked q Hq d chunks c)
    as [score Hin]; [by eapply lookup_lt_Some | done | by eapply lookup_lt_Some |].
  fold items in Hin.
  destruct (dict_get q items) as [ds|] eqn:Hget; simpl in Hin;
    [|by apply elem_of_nil in Hin].
  assert (Hall_popped : popped_for q (schedule rounds items) = ds).
  { rewrite (schedule_popped q rounds items ds);
      [|apply build_queues_NoDup_keys|done].
    apply take_ge.
    pose proof (dict_get_iter_pop_all q rounds items) as Hleft'.
    rewrite Hget in Hleft'. simpl in Hleft'.
    apply (queued_zero_get _ _ _ Hempty) in Hleft'.
    apply (f_equal length) in Hleft'. rewrite length_drop in Hleft'. simpl in Hleft'.
    lia. }
  rewrite <- Hall_popped in Hin. apply popped_for_subseteq in Hin.
  pose proof (consider_all_settles _ _ _ _ _ Hall) as Hsettled.
  rewrite Forall_forall in Hsettled.
  destruct (Hsettled _ Hin) as [Hsel|(chunk' & Hchunk' & Hlong')]; [by left|].
  right. simpl in Hchunk'. apply chunk_at_Ok in Hchunk' as (chunks' & Hd' & Hc').
  congruence.
Qed.

(** ** A budget below every chunk *)

Lemma len_append s t : len (String.append s t) = len s + len t.
Proof.
  unfold len. induction s as [|c s IH].
  - change (String.append EmptyString t) with t. simpl. lia.
  - rewrite append_cons. simpl String.length. lia.
Qed.

Lemma len_concat_str l : len (concat_str l) = sum_Z (len <$> l).
Proof.
  induction l as [|s l IH]; [done|].
  change (concat_str (s :: l)) with (String.append s (concat_str l)).
  rewrite len_append, IH. done.
Qed.

Lemma len_elem_of_le (l : list string) s : s ∈ l → len s <= sum_Z (len <$> l).
Proof.
  induction l as [|x l IH]; intros Hin; [by apply elem_of_nil in Hin|].
  change (sum_Z (len <$> x :: l)) with (len x + sum_Z (len <$> l)).
  pose proof (sum_len_nonneg l). apply elem_of_cons in Hin as [->|Hin].
  - lia.
  - specialize (IH Hin). unfold len at 2. lia.
Qed.

(** A chunk is no longer than the text it is cut from. *)
Lemma chunk_len_le doc chunks chunk :
  chunk_to_length doc 512 = Ok chunks → chunk ∈ chunks → len chunk <= len doc.
Proof.
  intros Hcut Hin.
  destruct (chunk_loop_spec 512 (S (String.length doc)) eq_refl doc [])
    as (body & last & Hrun & Hcat & _); [lia|].
  unfold chunk_to_length in Hcut. rewrite Hrun in Hcut. injection Hcut as <-.
  rewrite <- Hcat, len_concat_str. by apply len_elem_of_le.
Qed.

(** X7 -- When every chunk of every converted document is longer than
    [max_characters], [predict] returns the empty list of fragments for
    every document. *)
Theorem no_chunk_fits `{Embedder, Converter} queries documents
    document_filenames max_characters converted_docs :
  convert_all documents (split_lines document_filenames) = Ok converted_docs →
  (∀ doc chunks chunk,
     doc ∈ converted_docs → chunk_to_length doc 512 = Ok chunks → chunk ∈ chunks →
     max_characters < len chunk) →
  predict queries documents document_filenames max_characters
    = Ok (replicate (length documents) []).
Proof.
  intros Hconv Hlong.
  destruct converted_docs as [|doc0 docs] eqn:Hdocs.
  - assert (documents = []) as ->.
    { unfold convert_all in Hconv. apply mapM_Ok, Forall2_length in Hconv.
      rewrite length_zip in Hconv. simpl in Hconv.
      destruct (split_lines_nonempty document_filenames) as [line Hline].
      destruct (split_lines document_filenames); [by apply elem_of_nil in Hline|].
      destruct documents; [done | simpl in Hconv; lia]. }
    unfold predict. rewrite Hconv. simpl.
    destruct (0 <? max_characters) eqn:Hmax; [reflexivity|].
    unfold select_chunks, allocate, build_queues. simpl.
    unfold allocate_loop, queued. simpl. by rewrite Hmax.
  - rewrite <- Hdocs in *.
    assert (Hpath : max_characters <= sum_Z (len <$> converted_docs)).
    { destruct (chunk_all_total [doc0]) as [cs Hcs].
      apply mapM_Ok in Hcs. inversion Hcs as [|? chunks ? ? Hcut _]; subst.
      destruct (chunk_loop_spec 512 (S (String.length doc0)) eq_refl doc0 [])
        as (body & last & Hrun' & _); [lia|].
      unfold chunk_to_length in Hcut. rewrite Hrun' in Hcut. injection Hcut as <-.
      assert (Hlast : last ∈ body ++ [last]).
      { apply elem_of_app. right. by apply list_elem_of_singleton. }
      assert (Hdoc0 : doc0 ∈ doc0 :: docs) by left.
      pose proof (Hlong doc0 (body ++ [last]) last Hdoc0 Hrun' Hlast).
      pose proof (chunk_len_le doc0 _ last Hrun' Hlast).
      pose proof (len_elem_of_le (doc0 :: docs) doc0 Hdoc0). lia. }
    destruct (predict_chunked_run queries documents document_filenames
                max_characters converted_docs Hconv Hpath)
      as (chunked & items' & st & frags & Hchunked & Halloc & Htexts & _ & Hrun).
    assert (Hst : st = initial_selection documents).
    { refine (allocate_preserves _ _ (λ s, s = initial_selection documents)
                _ _ _ _ _ _ Halloc); [|done].
      intros [[d c] s] st1 st2 -> Hc.
      apply consider_cases in Hc
        as [->|(chunk & selected & Hchunk & _ & _ & Hfit & _)]; [done|].
      exfalso. simpl in Hfit.
      apply chunk_at_Ok in Hchunk as (chunks & Hd & Hchunk).
      apply mapM_Ok in Hchunked.
      destruct (Forall2_lookup_r _ _ _ _ _ Hchunked Hd) as (doc & Hdoc & Hcut).
      apply list_elem_of_lookup_2 in Hdoc, Hchunk.
      pose proof (Hlong doc chunks chunk Hdoc Hcut Hchunk). lia. }
    subst st. simpl in Htexts. rewrite chunk_texts_initial in Htexts.
    injection Htexts as <-. exact Hrun.
Qed.

(** ** The fast path, in general *)

(** X8 -- On the fast path [predict] returns a result only when every
    converted text has exactly two characters, and the result is then, for
    each document, its first character alone; when some text has another
    number of characters it raises [ValueError]. *)
Theorem fast_path_unpacks `{Embedder, Converter} queries documents
    document_filenames max_characters converted_docs :
  convert_all documents (split_lines document_filenames) = Ok converted_docs →
  sum_Z (len <$> converted_docs) < max_characters →
  (Forall (λ item, String.length item = 2%nat) converted_docs ∧
   predict queries documents document_filenames max_characters
     = Ok ((λ item, [str_take 1 item]) <$> converted_docs)) ∨
  (¬ Forall (λ item, String.length item = 2%nat) converted_docs ∧
   predict queries documents document_filenames max_characters = Err ValueError).
Proof.
  intros Hconv Hshort. rewrite (predict_fast_path _ _ _ _ _ Hconv Hshort).
  clear. induction converted_docs as [|item items IH]; [left; by split|].
  cbn [mapM]. destruct (unpack_pair item) as [[doc rest]|e] eqn:Hitem.
  - apply unpack_pair_Ok in Hitem as [Hlen ->]. simpl.
    destruct IH as [[Hall ->]|[Hnot ->]]; simpl.
    + left. split; [by constructor | done].
    + right. split; [|done]. intros Hall. apply Hnot. by inversion Hall.
  - right. split.
    + intros Hall. inversion Hall as [|? ? Hlen _]; subst.
      destruct item as [|a [|b [|c item]]]; simpl in *; congruence.
    + simpl. destruct item as [|a [|b [|c item]]]; simpl in *; congruence.
Qed.

(** ** The text of a PDF *)

Lemma append_assoc s t u :
  String.append (String.append s t) u = String.append s (String.append t u).
Proof.
  induction s as [|c s IH]; [done|]. by rewrite !append_cons, IH.
Qed.

Lemma append_empty_l s : String.append EmptyString s = s.
Proof. reflexivity. Qed.

Lemma rstrip_cons_nonspace c s :
  isspace c = false → rstrip (String c s) = String c (rstrip s).
Proof. intros Hc. simpl. rewrite Hc. by destruct (rstrip s). Qed.

(** Stripping on the right stops at a character that is not white space. *)
Lemma rstrip_app_nonspace s c t :
  isspace c = false →
  rstrip (String.append s (String c t)) = String.append s (String c (rstrip t)).
Proof.
  intros Hc. induction s as [|x s IH].
  - rewrite !append_empty_l. by apply rstrip_cons_nonspace.
  - rewrite !append_cons. simpl. rewrite IH.
    by destruct s; rewrite ?append_empty_l, ?append_cons.
Qed.

Lemma enumerate_from_app {A} start (l1 l2 : list A) :
  enumerate_from start (l1 ++ l2)
  = enumerate_from start l1 ++ enumerate_from (start + length l1) l2.
Proof.
  revert start. induction l1 as [|x l1 IH]; intros start; simpl.
  - by rewrite Nat.add_0_r.
  - rewrite IH. by rewrite Nat.add_succ_r.
Qed.

Lemma add_pages_blank start (blanks : list string) full_text :
  Forall (λ text, text = EmptyString) blanks →
  foldl add_page full_text (enumerate_from start blanks) = full_text.
Proof.
  intros Hblank. revert start.
  induction Hblank as [|text blanks -> _ IH]; intros start; simpl; [done|].
  apply IH.
Qed.

Lemma add_pages_append start (pages : list string) full_text :
  foldl add_page full_text (enumerate_from start pages)
  = String.append full_text (foldl add_page EmptyString (enumerate_from start pages)).
Proof.
  revert start full_text. induction pages as [|text pages IH]; intros start full_text.
  - simpl. by rewrite append_empty_r.
  - simpl. rewrite IH, (IH _ (if 0 <? len text then _ else _)).
    destruct (0 <? len text); [|done].
    by rewrite append_empty_l, append_assoc.
Qed.

Lemma first_page_with_text (pages : list string) :
  Forall (λ text, text = EmptyString) pages ∨
  ∃ blanks text rest,
    pages = blanks ++ text :: rest ∧
    Forall (λ text, text = EmptyString) blanks ∧
    text ≠ EmptyString.
Proof.
  induction pages as [|page pages IH]; [by left|].
  destruct (decide (page = EmptyString)) as [->|Hne].
  - destruct IH as [Hall|(blanks & text & rest & -> & Hblank & Htext)].
    + left. by constructor.
    + right. exists (EmptyString :: blanks), text, rest. split_and!; try done.
      by constructor.
  - right. by exists [], page, pages.
Qed.

(** Stripping keeps what lies between two characters that are not white
    space. *)
Lemma strip_between c1 s c2 t :
  isspace c1 = false → isspace c2 = false →
  strip (String c1 (String.append s (String c2 t)))
  = String c1 (String.append s (String c2 (rstrip t))).
Proof.
  intros Hc1 Hc2. unfold strip. simpl lstrip. rewrite Hc1.
  change (String c1 (String.append s (String c2 t)))
    with (String.append (String c1 s) (String c2 t)).
  by rewrite rstrip_app_nonspace.
Qed.

(** The text extracted when the first page that has text is page
    [length blanks]. *)
Lemma extract_text_first_page blanks text rest :
  Forall (λ text, text = EmptyString) blanks →
  text ≠ EmptyString →
  ∃ tail,
    extract_text_from_pdf (blanks ++ text :: rest)
    = String.append "---- Page "
        (String.append (pretty (length blanks)) (String.append " ----" tail)).
Proof.
  intros Hblank Htext. unfold extract_text_from_pdf, enumerate.
  rewrite enumerate_from_app, foldl_app, (add_pages_blank 0 blanks) by done.
  simpl. rewrite add_pages_append.
  assert ((0 <? len text) = true) as ->.
  { apply Z.ltb_lt. destruct text; [done | unfold len; simpl; lia]. }
  rewrite append_empty_l. unfold page_header.
  set (more := foldl add_page _ _).
  set (after := String.append
                  (String.append text (String newline (String newline EmptyString)))
                  more).
  set (dash := Ascii.ascii_of_nat 45).
  assert (Hfull :
    String.append
      (String.append
         (String.append "---- Page "
            (String.append (pretty (length blanks))
               (String.append " ----" (String newline EmptyString))))
         (String.append text (String newline (String newline EmptyString))))
      more
    = String dash
        (String.append
           (String.append "--- Page " (String.append (pretty (length blanks)) " ---"))
           (String dash (String newline after)))).
  { subst after dash. rewrite !append_assoc. reflexivity. }
  rewrite Hfull, strip_between by done.
  exists (rstrip (String newline after)). subst dash.
  rewrite !append_assoc. reflexivity.
Qed.

(** X9 -- [extract_text_from_pdf] returns the empty string exactly when
    every page has an empty text; a page of white space alone still gives
    its header. *)
Theorem extract_text_empty_iff (pages : list string) :
  extract_text_from_pdf pages = EmptyString ↔
  Forall (λ text, text = EmptyString) pages.
Proof.
  split.
  - intros Hempty.
    destruct (first_page_with_text pages)
      as [Hall|(blanks & text & rest & -> & Hblank & Htext)]; [done|].
    destruct (extract_text_first_page blanks text rest Hblank Htext) as [tail Htail].
    rewrite Htail in Hempty. discriminate.
  - intros Hall. unfold extract_text_from_pdf, enumerate.
    by rewrite add_pages_blank.
Qed.

(** X10 -- The text extracted begins with the header of the first page
    that has text, and the number in the header is the position of that
    page in the document, counted from zero: the empty pages before it are
    counted though they are left out. *)
Theorem extract_text_first_header (pages : list string) (k : nat) (text : string) :
  (∀ j, (j < k)%nat → pages !! j = Some EmptyString) →
  pages !! k = Some text →
  text ≠ EmptyString →
  ∃ tail,
    extract_text_from_pdf pages
    = String.append "---- Page " (String.append (pretty k) (String.append " ----" tail)).
Proof.
  intros Hblank Hk Htext.
  rewrite <- (take_drop_middle pages k text Hk).
  assert (Hlen : length (take k pages) = k).
  { apply length_take_le. apply lookup_lt_Some in Hk. lia. }
  replace (pretty k) with (pretty (length (take k pages))) by (by rewrite Hlen).
  apply extract_text_first_page; [|done].
  apply Forall_lookup. intros j page Hj.
  apply lookup_take_Some in Hj as [Hj Hjk].
  rewrite (Hblank j Hjk) in Hj. congruence.
Qed.

Lemma lstrip_head s c t : lstrip s = String c t → isspace c = false.
Proof.
  induction s as [|x s IH]; simpl; [done|].
  destruct (isspace x) eqn:Hx; [done|]. by intros [= <- _].
Qed.

Lemma rstrip_head s c t : rstrip s = String c t → ∃ s', s = String c s'.
Proof.
  destruct s as [|x s]; simpl; [done|].
  destruct (rstrip s); [destruct (isspace x)|]; intros [= <- _]; eauto.
Qed.

Lemma rstrip_last s t c :
  rstrip s = String.append t (String c EmptyString) → isspace c = false.
Proof.
  revert t. induction s as [|x s IH]; intros t; simpl.
  - by destruct t.
  - destruct (rstrip s) as [|y r] eqn:Hr.
    + destruct (isspace x) eqn:Hx; [by destruct t|].
      destruct t as [|z [|? ?]]; [by intros [= <-] | done | done].
    + destruct t as [|z t]; [done|]. rewrite append_cons. intros [= _ Ht].
      by apply (IH t).
Qed.

(** X11 -- The text [extract_text_from_pdf] returns neither begins nor
    ends with a white-space character. *)
Theorem extract_text_stripped (pages : list string) (c : Ascii.ascii) (t : string) :
  isspace c = true →
  extract_text_from_pdf pages ≠ String c t ∧
  extract_text_from_pdf pages ≠ String.append t (String c EmptyString).
Proof.
  intros Hc. unfold extract_text_from_pdf, strip. split; intros Heq.
  - destruct (rstrip_head _ _ _ Heq) as [s' Hs'].
    apply lstrip_head in Hs'. congruence.
  - apply rstrip_last in Heq. congruence.
Qed.

(** ** Random names *)

Lemma choice_lowercase `{RandomSource G} (g : G) :
  (97 <= Ascii.nat_of_ascii (choice ascii_lowercase g).1 <= 122)%nat.
Proof.
  unfold choice. pose proof (randbelow_lt g (String.length ascii_lowercase)) as Hlt.
  destruct (randbelow g (String.length ascii_lowercase)) as [i g']. simpl in *.
  specialize (Hlt ltac:(lia)).
  do 26 (destruct i as [|i]; [vm_compute; split; lia|]). lia.
Qed.

(** X12 -- [random_word] returns a word of exactly [length] letters, none
    for a negative [length], and every one of them a lowercase letter from
    [a] to [z]. *)
Theorem random_word_letters `{RandomSource G} (length : Z) (g : G) :
  String.length (random_word length g).1 = Z.to_nat length ∧
  Forall (λ c, (97 <= Ascii.nat_of_ascii c <= 122)%nat)
         (String.list_ascii_of_string (random_word length g).1).
Proof.
  unfold random_word. generalize (Z.to_nat length) as count. clear length.
  intros count. revert g. induction count as [|count IH]; intros g; simpl.
  - split; [done | constructor].
  - pose proof (choice_lowercase g) as Hc.
    destruct (choice ascii_lowercase g) as [c g1]. simpl in Hc.
    destruct (IH g1) as [Hlen Hall].
    destruct (random_letters count g1) as [word g2]. simpl in *.
    split; [by rewrite Hlen | by constructor].
Qed.

(** ** Replacing in a path *)

Lemma length_append s t :
  String.length (String.append s t) = (String.length s + String.length t)%nat.
Proof. pose proof (len_append s t). unfold len in *. lia. Qed.

Lemma prefix_append old t : String.prefix old (String.append old t) = true.
Proof.
  induction old as [|c old IH]; [by destruct t|].
  rewrite append_cons. simpl. destruct (Ascii.ascii_dec c c); [exact IH|done].
Qed.

(** Replacing by a string that is not shorter does not shorten. *)
Lemma replace_from_length old new s :
  (0 < String.length old <= String.length new)%nat →
  ∀ skip, (String.length s <= String.length (replace_from old new skip s) + skip)%nat.
Proof.
  intros Hlen. induction s as [|c s IH]; intros skip; [simpl; lia|].
  destruct skip as [|skip]; cbn [replace_from].
  - destruct (String.prefix old (String c s)).
    + rewrite length_append. specialize (IH (String.length old - 1)%nat).
      cbn [String.length]. lia.
    + cbn [String.length]. specialize (IH 0%nat). lia.
  - specialize (IH skip). cbn [String.length]. lia.
Qed.

(** And it lengthens a string in which [old] occurs, when the replacement
    is longer. *)
Lemma replace_from_occurs old new a b :
  (0 < String.length old < String.length new)%nat →
  (String.length (String.append a (String.append old b))
   < String.length (str_replace old new (String.append a (String.append old b))))%nat.
Proof.
  intros Hlen. unfold str_replace.
  assert (Hmatch : ∀ c s, String.prefix old (String c s) = true →
            (String.length (String c s)
             < String.length (replace_from old new 0 (String c s)))%nat).
  { intros c s Hp. cbn [replace_from]. rewrite Hp, length_append.
    pose proof (replace_from_length old new s ltac:(lia) (String.length old - 1)).
    cbn [String.length]. lia. }
  induction a as [|x a IH].
  - rewrite append_empty_l. pose proof (prefix_append old b) as Hp.
    destruct (String.append old b) as [|c s] eqn:Hs.
    + apply (f_equal String.length) in Hs. rewrite length_append in Hs. simpl in Hs. lia.
    + by apply Hmatch.
  - rewrite append_cons.
    destruct (String.prefix old (String x (String.append a (String.append old b))))
      eqn:Hp; [by apply Hmatch|].
    cbn [replace_from]. rewrite Hp. cbn [String.length]. lia.
Qed.

Lemma ends_with_split s suffix :
  ends_with s suffix = true →
  s = String.append (str_take (String.length s - String.length suffix) s) suffix.
Proof.
  unfold ends_with. intros Hends. apply andb_true_iff in Hends as [_ Heq].
  apply String.eqb_eq in Heq.
  set (n := (String.length s - String.length suffix)%nat) in *.
  transitivity (String.append (str_take n s) (str_drop n s));
    [by rewrite str_take_drop | by rewrite Heq].
Qed.

(** The file OCR writes to is another file when the path ends in [.pdf]. *)
Lemma ocr_path_differs input_file :
  ends_with input_file ".pdf" = true →
  str_replace ".pdf" "_ocr.pdf" input_file ≠ input_file.
Proof.
  intros Hends Heq. apply ends_with_split in Hends.
  pose proof (replace_from_occurs ".pdf" "_ocr.pdf"
                (str_take (String.length input_file - String.length ".pdf") input_file)
                EmptyString ltac:(simpl; lia)) as Hlong.
  rewrite append_empty_r, <- Hends, Heq in Hlong. lia.
Qed.

(** ** The converters *)

Section Converters.

Context `{IO.Tools} `{RandomSource G}.

Lemma io_bind_Return {A B} (m : IO.io G A) (f : A → IO.io G B) w a w1 :
  m w = (IO.Return a, w1) → (m ≫= f) w = f a w1.
Proof. intros Hm. unfold mbind, IO.io_bind. by rewrite Hm. Qed.

Lemma io_bind_Raise {A B} (m : IO.io G A) (f : A → IO.io G B) w e w1 :
  m w = (IO.Raise e, w1) → (m ≫= f) w = (IO.Raise e, w1).
Proof. intros Hm. unfold mbind, IO.io_bind. by rewrite Hm. Qed.

Lemma read_pdf_run path (w : IO.world G) contents :
  IO.files w !! path = Some contents →
  IO.read_pdf path w = (IO.pdf_pages contents, w).
Proof.
  intros Hfile. unfold IO.read_pdf.
  erewrite io_bind_Return; [done|]. unfold IO.read_file. by rewrite Hfile.
Qed.

(** X13 -- [convert_pdf] on a path that ends in [.pdf]: the text returned
    is the text of the file as it was, also when OCR has run; what OCR
    wrote is never read, and it is deleted, with whatever file had its
    name before. *)
Theorem convert_pdf_ignores_ocr (input_file : string) (w : IO.world G)
    (contents : string) (reader : list (string * nat)) :
  IO.files w !! input_file = Some contents →
  IO.pdf_pages contents = IO.Return reader →
  ends_with input_file ".pdf" = true →
  IO.convert_pdf input_file w =
  if (0 <? sum_list reader.*2)%nat && (len (extract_text_from_pdf reader.*1) <? 1000)
  then match IO.ocr_output contents with
       | IO.Return _ =>
           (IO.Return (extract_text_from_pdf reader.*1),
            {| IO.files := delete (str_replace ".pdf" "_ocr.pdf" input_file) (IO.files w);
               IO.generator := IO.generator w |})
       | IO.Raise e => (IO.Raise e, w)
       end
  else (IO.Return (extract_text_from_pdf reader.*1), w).
Proof.
  intros Hfile Hpages Hends. apply ocr_path_differs in Hends.
  unfold IO.convert_pdf.
  erewrite io_bind_Return; [|rewrite (read_pdf_run _ _ _ Hfile), Hpages; done].
  destruct (_ && _); [|done].
  set (out := str_replace ".pdf" "_ocr.pdf" input_file) in *.
  unfold IO.ocr at 1.
  destruct (IO.ocr_output contents) as [made|e] eqn:Hocr.
  - set (w1 := {| IO.files := <[out := made]> (IO.files w);
                  IO.generator := IO.generator w |}).
    erewrite (io_bind_Return _ _ w () w1); cycle 1.
    { erewrite io_bind_Return; [|unfold IO.read_file; by rewrite Hfile].
      erewrite io_bind_Return; [|unfold IO.lift; by rewrite Hocr]. done. }
    erewrite io_bind_Return; cycle 1.
    { rewrite (read_pdf_run _ w1 contents), Hpages; [done|].
      simpl. by rewrite lookup_insert_ne. }
    erewrite io_bind_Return; cycle 1.
    { unfold IO.remove. simpl. rewrite lookup_insert_eq. done. }
    unfold mret, IO.io_ret. simpl. by rewrite delete_insert_eq.
  - erewrite io_bind_Raise; [done|].
    erewrite io_bind_Return; [|unfold IO.read_file; by rewrite Hfile].
    erewrite io_bind_Raise; [done|]. unfold IO.lift. by rewrite Hocr.
Qed.

(** X14 -- [convert_pdf] on a path without [.pdf] in it, when OCR runs:
    OCR writes over the file itself, the text returned is the text of what
    it wrote, and the file is deleted. *)
Theorem convert_pdf_in_place (input_file : string) (w : IO.world G)
    (contents made : string) (reader reader' : list (string * nat)) :
  IO.files w !! input_file = Some contents →
  IO.pdf_pages contents = IO.Return reader →
  (0 <? sum_list reader.*2)%nat && (len (extract_text_from_pdf reader.*1) <? 1000) = true →
  str_replace ".pdf" "_ocr.pdf" input_file = input_file →
  IO.ocr_output contents = IO.Return made →
  IO.pdf_pages made = IO.Return reader' →
  IO.convert_pdf input_file w =
  (IO.Return (extract_text_from_pdf reader'.*1),
   {| IO.files := delete input_file (IO.files w); IO.generator := IO.generator w |}).
Proof.
  intros Hfile Hpages Hcond Hsame Hocr Hpages'.
  unfold IO.convert_pdf.
  erewrite io_bind_Return; [|rewrite (read_pdf_run _ _ _ Hfile), Hpages; done].
  rewrite Hcond, Hsame.
  set (w1 := {| IO.files := <[input_file := made]> (IO.files w);
                IO.generator := IO.generator w |}).
  erewrite (io_bind_Return _ _ w () w1); cycle 1.
  { unfold IO.ocr. erewrite io_bind_Return; [|unfold IO.read_file; by rewrite Hfile].
    erewrite io_bind_Return; [|unfold IO.lift; by rewrite Hocr]. done. }
  erewrite io_bind_Return; cycle 1.
  { rewrite (read_pdf_run _ w1 made), Hpages'; [done|].
    simpl. by rewrite lookup_insert_eq. }
  erewrite io_bind_Return; cycle 1.
  { unfold IO.remove. simpl. rewrite lookup_insert_eq. done. }
  unfold mret, IO.io_ret. simpl. by rewrite delete_insert_eq.
Qed.







End Converters.

(** ** Instances of the further properties *)

Lemma predict_result_shape_witness :
  ∃ fragments,
    @predict first_char_embedder path_converter example_queries
      [example_text; "bye"] "x.txt" 600 = Ok fragments ∧
    length fragments = length [example_text; "bye"%string] ∧
    ∀ d, (length [example_text] <= d < length [example_text; "bye"%string])%nat →
         fragments !! d = Some [].
Proof.
  apply (@predict_result_shape first_char_embedder path_converter example_queries
           [example_text; "bye"] "x.txt" 600 [example_text]).
  - reflexivity.
  - vm_compute. discriminate.
Defined.

Lemma fragments_are_chunks_witness :
  ∃ fragments,
    @predict first_char_embedder path_converter example_queries
      [example_text; "bye"] example_filenames 600 = Ok fragments ∧
    ∀ d texts text,
      fragments !! d = Some texts → text ∈ texts →
      ∃ doc chunks,
        [example_text; "bye"%string] !! d = Some doc ∧
        chunk_to_length doc 512 = Ok chunks ∧
        text ∈ chunks ∧
        len text <= 512.
Proof.
  apply (@fragments_are_chunks first_char_embedder path_converter example_queries
           [example_text; "bye"] example_filenames 600 [example_text; "bye"]).
  - reflexivity.
  - vm_compute. discriminate.
Defined.

Lemma unused_budget_fits_nothing_witness :
  ∃ chunked_docs st fragments,
    @select_chunks first_char_embedder (split_lines example_queries)
      [example_text; "bye"] [example_text; "bye"] 600 = Ok (chunked_docs, st) ∧
    @predict first_char_embedder path_converter example_queries
      [example_text; "bye"] example_filenames 600 = Ok fragments ∧
    total_fragment_chars fragments = total_chars st ∧
    (total_chars st < 600 →
     ∀ d chunks c chunk,
       chunked_docs !! d = Some chunks → chunks !! c = Some chunk →
       (∃ selected, document_embeddings st !! d = Some selected ∧ c ∈ selected) ∨
       600 < total_chars st + len chunk).
Proof.
  apply (@unused_budget_fits_nothing first_char_embedder path_converter
           example_queries [example_text; "bye"] example_filenames 600
           [example_text; "bye"]).
  - reflexivity.
  - vm_compute. discriminate.
Defined.

Lemma no_chunk_fits_witness :
  @predict first_char_embedder path_converter "q" ["hello"] "a.txt" 3
  = Ok (replicate (length ["hello"%string]) []).
Proof.
  apply (@no_chunk_fits first_char_embedder path_converter "q" ["hello"] "a.txt" 3
           ["hello"]).
  - reflexivity.
  - intros doc chunks chunk Hdoc Hcut Hin.
    apply list_elem_of_singleton in Hdoc as ->.
    vm_compute in Hcut. injection Hcut as <-.
    apply list_elem_of_singleton in Hin as ->. reflexivity.
Defined.

Lemma fast_path_unpacks_witness :
  (Forall (λ item, String.length item = 2%nat) ["hi"%string] ∧
   @predict first_char_embedder path_converter "q" ["hi"] "a.txt" 10
     = Ok ((λ item, [str_take 1 item]) <$> ["hi"%string])) ∨
  (¬ Forall (λ item, String.length item = 2%nat) ["hi"%string] ∧
   @predict first_char_embedder path_converter "q" ["hi"] "a.txt" 10 = Err ValueError).
Proof.
  apply (@fast_path_unpacks first_char_embedder path_converter "q" ["hi"] "a.txt" 10
           ["hi"]).
  - reflexivity.
  - reflexivity.
Defined.

Lemma extract_text_first_header_witness :
  ∃ tail,
    extract_text_from_pdf [""; "abc"]%string
    = String.append "---- Page " (String.append (pretty 1%nat) (String.append " ----" tail)).
Proof.
  apply (extract_text_first_header [""; "abc"]%string 1 "abc").
  - intros [|j] Hj; [reflexivity | lia].
  - reflexivity.
  - discriminate.
Defined.

Lemma extract_text_stripped_witness :
  extract_text_from_pdf [" a "%string] ≠ String (Ascii.ascii_of_nat 32) EmptyString ∧
  extract_text_from_pdf [" a "%string]
    ≠ String.append EmptyString (String (Ascii.ascii_of_nat 32) EmptyString).
Proof.
  apply (extract_text_stripped [" a "%string] (Ascii.ascii_of_nat 32) EmptyString).
  reflexivity.
Defined.

(** A PDF with images and no text, under a path that ends in [.pdf]: OCR
    runs, and the text returned is still the empty text of the file. *)
Lemma convert_pdf_ignores_ocr_witness :
  @IO.convert_pdf IO.line_tools nat "doc.pdf" IO.example_world
  = (IO.Return EmptyString,
     {| IO.files := delete "doc_ocr.pdf"%string (IO.files IO.example_world);
        IO.generator := 0%nat |}).
Proof.
  exact (@convert_pdf_ignores_ocr IO.line_tools nat "doc.pdf" IO.example_world
           (String newline EmptyString)
           [(EmptyString, 1%nat); (EmptyString, 1%nat)]
           eq_refl eq_refl eq_refl).
Defined.

(** The same file under a path without [.pdf]: the text is that of what
    OCR wrote, and the file is gone. *)
Lemma convert_pdf_in_place_witness :
  @IO.convert_pdf IO.line_tools nat "upload.tmp" IO.example_world
  = (IO.Return (extract_text_from_pdf ["scanned"%string]),
     {| IO.files := delete "upload.tmp"%string (IO.files IO.example_world);
        IO.generator := 0%nat |}).
Proof.
  exact (@convert_pdf_in_place IO.line_tools nat "upload.tmp" IO.example_world
           (String newline EmptyString) "scanned"
           [(EmptyString, 1%nat); (EmptyString, 1%nat)] [("scanned"%string, 0%nat)]
           eq_refl eq_refl eq_refl eq_refl eq_refl eq_refl).
Defined.




Lemma embed_last_occurrence_witness :
  (dict_get "a" (@embed first_char_embedder ["a"; "b"; "a"] ["abc"])%string = None
   ↔ "a"%string ∉ ["a"; "b"; "a"]%string) ∧
  (∀ ranking,
     dict_get "a" (@embed first_char_embedder ["a"; "b"; "a"] ["abc"])%string
       = Some ranking →
     ∃ i u, ["a"; "b"; "a"]%string !! i = Some "a"%string ∧
            (∀ j, (i < j)%nat → ["a"; "b"; "a"]%string !! j ≠ Some "a"%string) ∧
            @encode_query first_char_embedder ["a"; "b"; "a"]%string !! i = Some u ∧
            ranking = zip (seq 0 (length ["abc"%string]))
                          (dot u <$> @encode_document first_char_embedder ["abc"%string])).
Proof.
  exact (@embed_last_occurrence first_char_embedder ["a"; "b"; "a"]%string
           ["abc"%string] "a"%string).
Defined.

Lemma random_word_letters_witness :
  String.length (@random_word nat counter 16 0%nat).1 = Z.to_nat 16 ∧
  Forall (λ c, (97 <= Ascii.nat_of_ascii c <= 122)%nat)
         (String.list_ascii_of_string (@random_word nat counter 16 0%nat).1).
Proof. exact (@random_word_letters nat counter 16 0%nat). Defined.
